(** * Load_Balancer: the pool controller of [scaler/src]

    A shallow embedding of [docker-load-balancer.ts] (class
    [DockerLoadBalancer]), [docker-manager.ts] (class [DockerManager]) and
    of the subprocess variant [module/index.ts] (class [LoadBalancer]).

    Modelling conventions.
    - JavaScript objects have identity: [this.instances] holds references,
      closures of [handleRequest] keep a reference to the chosen instance
      after it left the array.  The records live in a store
      [heap : gmap loc DockerInstance]; the array is a [list loc].
    - Node runs every callback to completion.  Each synchronous segment of
      the source is one function on the controller state; what the outside
      world answers (Docker commands, health probes, [Date.now()]) is an
      argument of that function.
    - Counters and millisecond timestamps are integers ([Z]).  The load
      and the thresholds are JavaScript numbers that are not integers:
      they are IEEE-754 binary64 values, and every [+], [-], [/] and
      comparison on them is the binary64 one ([Double] below).  The exact
      rationals ([Q]) only serve to state what the specification says. *)

From Stdlib Require Import ZArith QArith Qminmax SpecFloat Lia.
From stdpp Require Import base option list gmap strings sorting.

Local Open Scope Z_scope.

(** ** Exceptions and state *)

Inductive result (A : Type) : Type :=
| Ok (a : A)
| Throw (msg : string).
Arguments Ok {A} a.
Arguments Throw {A} msg.

(** A computation over a state [S] that returns or throws; the state
    survives a throw, as mutations of JavaScript objects do. *)
Definition M (S A : Type) : Type := S → result A * S.

Definition ret {S A} (a : A) : M S A := λ s, (Ok a, s).
Definition throw {S A} (msg : string) : M S A := λ s, (Throw msg, s).
Definition bind {S A B} (m : M S A) (k : A → M S B) : M S B :=
  λ s, match m s with
       | (Ok a, s') => k a s'
       | (Throw e, s') => (Throw e, s')
       end.
Definition try_catch {S A} (body : M S A) (handler : string → M S A) : M S A :=
  λ s, match body s with
       | (Ok a, s') => (Ok a, s')
       | (Throw e, s') => handler e s'
       end.
Definition modify_state {S} (f : S → S) : M S unit := λ s, (Ok tt, f s).
(** A read of the current state. *)
Definition with_state {S A} (k : S → M S A) : M S A := λ s, k s s.

#[export] Instance M_ret {S} : MRet (M S) := λ A, ret.
#[export] Instance M_bind {S} : MBind (M S) := λ A B k m, bind m k.

(** [for (const x of l) { await body(x) }]: a throw leaves the loop. *)
Fixpoint for_each {S A} (l : list A) (body : A → M S unit) : M S unit :=
  match l with
  | [] => ret tt
  | x :: t => bind (body x) (λ _, for_each t body)
  end.

(** ** Arrays *)

(** [Array.prototype.indexOf] with [-1] as [None]. *)
Fixpoint indexOf `{EqDecision A} (x : A) (l : list A) : option nat :=
  match l with
  | [] => None
  | y :: t => if decide (y = x) then Some 0%nat else S <$> indexOf x t
  end.

(** [arr.splice(index, 1)]. *)
Definition splice1 {A} (index : nat) (l : list A) : list A := delete index l.

(** [arr.reduce(f)] without an initial value; [None] stands for the
    [TypeError] on an empty array. *)
Definition reduce1 {A} (f : A → A → A) (l : list A) : option A :=
  match l with
  | [] => None
  | x :: t => Some (foldl f x t)
  end.

(** [arr.sort((a, b) => key a - key b)]: the sort of an array is stable, so
    its result is that of the insertion sort that keeps equal keys in
    order. *)
Fixpoint insert_sorted {A} (key : A → Z) (x : A) (l : list A) : list A :=
  match l with
  | [] => [x]
  | y :: t => if decide (key x ≤ key y) then x :: y :: t
              else y :: insert_sorted key x t
  end.

Definition sort_by {A} (key : A → Z) (l : list A) : list A :=
  foldr (insert_sorted key) [] l.

(** Object identities. *)
Abbreviation loc := positive.

(** ** Numbers

    A JavaScript number is an IEEE-754 binary64 value: [spec_float] at
    precision 53 with the infinities at exponent 1024.  [SFadd], [SFsub]
    and [SFdiv] round to nearest, ties to even, as [+], [-] and [/] do;
    a comparison with [NaN] is false.  Every value below is the result of
    one of these operations or a normalised literal, so [SFcompare], which
    compares exponents before mantissas, is the order of the numbers. *)
Abbreviation double := spec_float.

Module Double.

Definition prec : Z := 53.
Definition emax : Z := 1024.

(** An integer as a number; exact between [-2^53] and [2^53]. *)
Definition of_Z (z : Z) : double := binary_normalize prec emax z 0 false.

(** The literal [0.5], that is [2^52 * 2^-53]. *)
Definition half : double := S754_finite false 4503599627370496 (-53).

Definition add : double → double → double := SFadd prec emax.
Definition sub : double → double → double := SFsub prec emax.
Definition div : double → double → double := SFdiv prec emax.

(** [x < y] and [x <= y]. *)
Definition lt (x y : double) : bool := SFltb x y.
Definition le (x y : double) : bool := SFleb x y.

(** [Math.max(x, y)]: [NaN] if either is, and [+0] is above [-0]. *)
Definition max (x y : double) : double :=
  match SFcompare x y with
  | None => S754_nan
  | Some Lt => y
  | Some Gt => x
  | Some Eq =>
      match x, y with
      | S754_zero true, S754_zero false => y
      | _, _ => x
      end
  end.


End Double.

Module Docker.

(** ** types/index.ts *)

Inductive Status := starting | running | stopping | stopped.

#[export] Instance Status_eq_dec : EqDecision Status.
Proof. solve_decision. Defined.

Record DockerInstance := mkInstance {
  id : string;
  containerId : string;
  port : Z;
  containerName : string;
  lastHealth : Z;
  isHealthy : bool;
  activeRequests : Z;
  totalRequests : Z;
  lastRequestTime : Z;
  responseTime : Z;
  status : Status;
}.

Record AppConfig := mkConfig {
  minInstances : Z;
  maxInstances : Z;
  checkInterval : Z;
  healthTimeout : Z;
  scaleUpThreshold : double;
  scaleDownThreshold : double;
  idleTimeout : Z;
  containerPrefix : string;
}.

(** Field assignments [instance.f = v]. *)
Definition set_status (v : Status) (i : DockerInstance) : DockerInstance :=
  mkInstance (id i) (containerId i) (port i) (containerName i) (lastHealth i)
    (isHealthy i) (activeRequests i) (totalRequests i) (lastRequestTime i)
    (responseTime i) v.
Definition set_lastHealth (v : Z) (i : DockerInstance) : DockerInstance :=
  mkInstance (id i) (containerId i) (port i) (containerName i) v
    (isHealthy i) (activeRequests i) (totalRequests i) (lastRequestTime i)
    (responseTime i) (status i).
Definition set_isHealthy (v : bool) (i : DockerInstance) : DockerInstance :=
  mkInstance (id i) (containerId i) (port i) (containerName i) (lastHealth i)
    v (activeRequests i) (totalRequests i) (lastRequestTime i)
    (responseTime i) (status i).
Definition set_activeRequests (v : Z) (i : DockerInstance) : DockerInstance :=
  mkInstance (id i) (containerId i) (port i) (containerName i) (lastHealth i)
    (isHealthy i) v (totalRequests i) (lastRequestTime i)
    (responseTime i) (status i).
Definition set_totalRequests (v : Z) (i : DockerInstance) : DockerInstance :=
  mkInstance (id i) (containerId i) (port i) (containerName i) (lastHealth i)
    (isHealthy i) (activeRequests i) v (lastRequestTime i)
    (responseTime i) (status i).
Definition set_lastRequestTime (v : Z) (i : DockerInstance) : DockerInstance :=
  mkInstance (id i) (containerId i) (port i) (containerName i) (lastHealth i)
    (isHealthy i) (activeRequests i) (totalRequests i) v
    (responseTime i) (status i).
Definition set_responseTime (v : Z) (i : DockerInstance) : DockerInstance :=
  mkInstance (id i) (containerId i) (port i) (containerName i) (lastHealth i)
    (isHealthy i) (activeRequests i) (totalRequests i) (lastRequestTime i)
    v (status i).

(** ** The controller state: the fields of [DockerLoadBalancer] *)

Record LB := mkLB {
  heap : gmap loc DockerInstance;
  instances : list loc;
  nextPort : Z;
}.

(** [new DockerLoadBalancer(config)]: [instances = []], [nextPort = 5001]. *)
Definition initial : LB := mkLB ∅ [] 5001.

Definition set_heap (h : gmap loc DockerInstance) (s : LB) : LB :=
  mkLB h (instances s) (nextPort s).
Definition set_instances (l : list loc) (s : LB) : LB :=
  mkLB (heap s) l (nextPort s).

(** A mutation of the object behind a reference. *)
Definition update (l : loc) (f : DockerInstance → DockerInstance) (s : LB) : LB :=
  set_heap (alter f l (heap s)) s.

(** The array as the code reads it: each reference with the record it
    points to. *)
Definition objects (s : LB) : list (loc * DockerInstance) :=
  omap (λ l, pair l <$> heap s !! l) (instances s).

(** ** docker-load-balancer.ts *)

(** [getNextPort]: [return this.nextPort++]. *)
Definition getNextPort (s : LB) : Z * LB :=
  (nextPort s, mkLB (heap s) (instances s) (nextPort s + 1)).

(** [i.isHealthy && i.status === "running"]. *)
Definition healthyRunning (i : DockerInstance) : Prop :=
  isHealthy i = true ∧ status i = running.

#[export] Instance healthyRunning_dec i : Decision (healthyRunning i).
Proof. unfold healthyRunning. apply _. Defined.

Definition getHealthyInstances (s : LB) : list (loc * DockerInstance) :=
  filter (λ p, healthyRunning p.2) (objects s).

Definition getInstanceLoad (instance : DockerInstance) : double :=
  let requestLoad := Double.of_Z (activeRequests instance) in
  let responseTimeWeight :=
    Double.max (Double.of_Z 0)
      (Double.div
         (Double.sub (Double.of_Z (responseTime instance)) (Double.of_Z 100))
         (Double.of_Z 1000)) in
  Double.add requestLoad responseTimeWeight.

Definition pickInstance (s : LB) : option (loc * DockerInstance) :=
  let healthy := getHealthyInstances s in
  if decide (length healthy = 0%nat) then None
  else reduce1 (λ min instance,
                  if Double.lt (getInstanceLoad instance.2)
                               (getInstanceLoad min.2)
                  then instance else min) healthy.

(** ** docker-manager.ts *)

(** What the Docker daemon answers to the three commands of
    [removeContainer]: [true] when [executeDockerCommand] resolves, [false]
    when it rejects. *)
Record RemoveOutcome := mkRemoveOutcome {
  stop_ok : bool;
  rm_ok : bool;
  rm_force_ok : bool;
}.

Definition executeDockerCommand (ok : bool) : M LB unit :=
  if ok then ret tt else throw "Docker command failed".

Definition removeContainer (o : RemoveOutcome) (instance : loc) : M LB unit :=
  try_catch
    (executeDockerCommand (stop_ok o);;
     modify_state (update instance (set_status stopping));;
     executeDockerCommand (rm_ok o);;
     modify_state (update instance (set_status stopped)))
    (λ _, try_catch (executeDockerCommand (rm_force_ok o)) (λ _, ret tt)).

(** What [createContainer] gets from outside: [randomUUID()], the outcome
    of [docker run] (its standard output, or [None] when the command
    fails) and the two readings of [Date.now()]. *)
Record CreateOutcome := mkCreateOutcome {
  uuid : string;
  run_stdout : option string;
  created_now1 : Z;
  created_now2 : Z;
}.

Definition createContainer (cfg : AppConfig) (o : CreateOutcome) (port : Z)
  : M LB loc :=
  let id := uuid o in
  let containerName :=
    (containerPrefix cfg ++ "-" ++ String.substring 0 8 id)%string in
  match run_stdout o with
  | None => throw "Docker command failed"
  | Some containerId =>
      λ s, let instance := fresh (dom (heap s)) in
           (Ok instance,
            set_heap (<[instance :=
                        mkInstance id (String.substring 0 12 containerId) port
                          containerName (created_now1 o) false 0 0
                          (created_now2 o) 0 starting]> (heap s)) s)
  end.

(** [getContainerStatus]: the lower-cased answer of [docker inspect], or
    ["not-found"] when the command fails. *)
Definition getContainerStatus (inspect : option string) : string :=
  match inspect with
  | Some st => st
  | None => "not-found"
  end.

(** ** docker-load-balancer.ts, continued *)

Definition removeInstance (o : RemoveOutcome) (instance : loc) : M LB unit :=
  modify_state (λ s,
    match indexOf instance (instances s) with
    | Some index => set_instances (splice1 index (instances s)) s
    | None => s
    end);;
  removeContainer o instance.

(** The answer to one health probe: a response with its status code, the
    [startTime] of the probe and the two readings of [Date.now()] taken in
    the response callback; a transport error; or the timeout. *)
Inductive ProbeOutcome :=
| ProbeResponse (statusCode startTime now1 now2 : Z)
| ProbeError
| ProbeTimeout.

Definition checkInstanceHealth (p : ProbeOutcome) (instance : loc)
  : M LB unit :=
  match p with
  | ProbeResponse statusCode startTime now1 now2 =>
      let responseTime := now1 - startTime in
      if decide (statusCode = 200) then
        modify_state (update instance (λ i,
          set_responseTime responseTime
            (set_isHealthy true (set_lastHealth now2 i))))
      else
        modify_state (update instance (set_isHealthy false));;
        throw "Health check failed"
  | ProbeError =>
      modify_state (update instance (set_isHealthy false));;
      throw "Health check error"
  | ProbeTimeout =>
      modify_state (update instance (set_isHealthy false));;
      throw "Health check timeout"
  end.

(** One round of the loop of [waitForInstanceReady]: the answer of
    [docker inspect] and, when the container runs, the answer to the
    probe.  The list of rounds ends when the clock passes [maxWait]. *)
Record PollRound := mkPoll {
  inspect : option string;
  probe : ProbeOutcome;
}.

Definition instanceHealthy (instance : loc) (s : LB) : bool :=
  match heap s !! instance with
  | Some i => isHealthy i
  | None => false
  end.

Fixpoint waitLoop (rounds : list PollRound) (o : RemoveOutcome)
  (instance : loc) : M LB unit :=
  match rounds with
  | [] =>
      removeInstance o instance;;
      throw "Instance failed to become ready"
  | r :: rest =>
      let containerStatus := getContainerStatus (inspect r) in
      if decide (containerStatus = "running") then
        modify_state (update instance (set_status running));;
        try_catch (checkInstanceHealth (probe r) instance) (λ _, ret tt);;
        with_state (λ s, if instanceHealthy instance s then ret tt
                         else waitLoop rest o instance)
      else waitLoop rest o instance
  end.

Definition waitForInstanceReady (rounds : list PollRound) (o : RemoveOutcome)
  (instance : loc) : M LB unit :=
  modify_state (update instance (set_status starting));;
  waitLoop rounds o instance.

Definition push (instance : loc) : M LB unit :=
  modify_state (λ s, set_instances (instances s ++ [instance]) s).

Definition spawnInstance (cfg : AppConfig) (c : CreateOutcome)
  (rounds : list PollRound) (o : RemoveOutcome) : M LB loc :=
  port ← ((λ s, let '(p, s') := getNextPort s in (Ok p, s')) : M LB Z);
  try_catch
    (instance ← createContainer cfg c port;
     push instance;;
     waitForInstanceReady rounds o instance;;
     ret instance)
    (λ error, throw error).

(** [healthCheckAll]: [probes] answers the probe of each instance,
    [outcomes] the Docker commands of each removal. *)
Definition persistentlyUnhealthy (now : Z) (i : DockerInstance) : Prop :=
  isHealthy i = false ∧ 60000 < now - lastHealth i.

#[export] Instance persistentlyUnhealthy_dec now i :
  Decision (persistentlyUnhealthy now i).
Proof. unfold persistentlyUnhealthy. apply _. Defined.

Definition healthCheckAll (probes : loc → ProbeOutcome) (now : Z)
  (outcomes : loc → RemoveOutcome) : M LB unit :=
  with_state (λ s,
    for_each (instances s)
      (λ instance,
         try_catch (checkInstanceHealth (probes instance) instance)
                   (λ _, ret tt)));;
  with_state (λ s,
    let unhealthyInstances :=
      filter (λ p, persistentlyUnhealthy now p.2) (objects s) in
    for_each unhealthyInstances
      (λ p, removeInstance (outcomes p.1) p.1)).

(** [healthy.reduce((sum, i) => sum + load(i), 0) / healthy.length]: the
    sum is accumulated from the left, each addition rounded; on an empty
    array it is the [NaN] of [0 / 0], which every comparison rejects. *)
Definition avgLoad (healthy : list (loc * DockerInstance)) : double :=
  Double.div
    (foldl (λ sum i, Double.add sum (getInstanceLoad i.2)) (Double.of_Z 0)
       healthy)
    (Double.of_Z (Z.of_nat (length healthy))).

Definition shouldScaleUp (cfg : AppConfig) (s : LB) : bool :=
  let healthy := getHealthyInstances s in
  if decide (maxInstances cfg ≤ Z.of_nat (length healthy)) then false
  else if decide (Z.of_nat (length healthy) < minInstances cfg) then true
  else
    let avgLoad := avgLoad healthy in
    Double.lt (scaleUpThreshold cfg) avgLoad.

Definition idle (cfg : AppConfig) (now : Z) (i : DockerInstance) : Prop :=
  idleTimeout cfg < now - lastRequestTime i ∧ activeRequests i = 0.

#[export] Instance idle_dec cfg now i : Decision (idle cfg now i).
Proof. unfold idle. apply _. Defined.

Definition shouldScaleDown (cfg : AppConfig) (now : Z) (s : LB) : bool :=
  let healthy := getHealthyInstances s in
  if decide (Z.of_nat (length healthy) ≤ minInstances cfg) then false
  else
    let avgLoad := avgLoad healthy in
    let hasIdleInstances :=
      bool_decide (Exists (λ p, idle cfg now p.2) healthy) in
    Double.lt avgLoad (scaleDownThreshold cfg) && hasIdleInstances.

(** The instance [autoScale] retires:
    [healthy.filter(i => i.activeRequests === 0).sort(...)[0]]. *)
Definition candidate (healthy : list (loc * DockerInstance))
  : option (loc * DockerInstance) :=
  head (sort_by (λ p, lastRequestTime p.2)
          (filter (λ p, activeRequests p.2 = 0) healthy)).

Definition autoScale (cfg : AppConfig) (now : Z) (c : CreateOutcome)
  (rounds : list PollRound) (o : RemoveOutcome) : M LB unit :=
  with_state (λ s,
    let healthy := getHealthyInstances s in
    if shouldScaleUp cfg s then
      try_catch (spawnInstance cfg c rounds o;; ret tt) (λ _, ret tt)
    else if shouldScaleDown cfg now s then
      match candidate healthy with
      | Some p => removeInstance o p.1
      | None => ret tt
      end
    else ret tt).

(** *** The data path *)

(** What the proxy itself answers: [res.status(code).json(body)]. *)
Inductive Reply :=
| Reply503 (error : string) (instances healthy : nat)
| Reply502 (error message : string)
| Reply504 (error message : string).

Record Request := mkRequest {
  originalUrl : string;
  method : string;
}.

(** The [options] of [http.request]. *)
Record ProxyOptions := mkOptions {
  opt_hostname : string;
  opt_port : Z;
  opt_path : string;
  opt_method : string;
  opt_timeout : Z;
}.

Definition SERVER_TIMEOUT : Z := 30000.

(** The synchronous part of [handleRequest]: either the 503 answer, with
    no upstream request, or the upstream request that was issued, with
    the instance and the [startTime] its callbacks close over. *)
Inductive Dispatch :=
| Rejected (r : Reply)
| Forwarded (instance : loc) (startTime : Z) (options : ProxyOptions).

Definition handleRequest (req : Request) (now1 now2 : Z) (s : LB)
  : Dispatch * LB :=
  match pickInstance s with
  | None =>
      (Rejected (Reply503 "No healthy backend servers available"
                   (length (instances s))
                   (length (getHealthyInstances s))), s)
  | Some (instance, i) =>
      let s1 := update instance (λ i, set_activeRequests (activeRequests i + 1) i) s in
      let s2 := update instance (λ i, set_totalRequests (totalRequests i + 1) i) s1 in
      let s3 := update instance (set_lastRequestTime now1) s2 in
      let startTime := now2 in
      (Forwarded instance startTime
         (mkOptions "localhost" (port i) (originalUrl req) (method req)
            SERVER_TIMEOUT), s3)
  end.

(** The client response [res], as far as the callbacks look at it. *)
Record Res := mkRes {
  headersSent : bool;
  replied : option Reply;
}.

Definition decrement (i : DockerInstance) : DockerInstance :=
  set_activeRequests (Z.max 0 (activeRequests i - 1)) i.

(** The events Node delivers to the callbacks of one upstream request. *)
Inductive UpstreamEvent :=
| EvResponse              (* the callback of [http.request] *)
| EvEnd (now : Z)         (* [proxyRes.on("end")] *)
| EvError                 (* [proxyReq.on("error")] *)
| EvTimeout.              (* [proxyReq.on("timeout")] *)

(** The callbacks registered by [handleRequest] for the request it
    forwarded to [instance] at [startTime]. *)
Definition deliver (instance : loc) (startTime : Z) (ev : UpstreamEvent)
  (st : Res * LB) : Res * LB :=
  let '(res, s) := st in
  match ev with
  | EvResponse => (mkRes true (replied res), s)
  | EvEnd now =>
      (res, update instance (set_responseTime (now - startTime))
              (update instance decrement s))
  | EvError =>
      let s' := update instance decrement s in
      if headersSent res then (res, s')
      else (mkRes true (Some (Reply502 "Bad Gateway" "Backend server error")), s')
  | EvTimeout =>
      let s' := update instance decrement s in
      if headersSent res then (res, s')
      else (mkRes true (Some (Reply504 "Gateway Timeout" "Backend server timeout")), s')
  end.

Definition deliver_all (instance : loc) (startTime : Z)
  (evs : list UpstreamEvent) (st : Res * LB) : Res * LB :=
  foldl (λ st ev, deliver instance startTime ev st) st evs.

(** The three ways an upstream request ends.  The timeout callback calls
    [proxyReq.destroy()]; Node answers [destroy()] on a request whose
    response has not arrived with an ['error'] event (ECONNRESET, socket
    hang up) on that request, so the error callback runs after the
    timeout callback. *)
Definition success_path (now : Z) : list UpstreamEvent := [EvResponse; EvEnd now].
Definition error_path : list UpstreamEvent := [EvError].
Definition timeout_path : list UpstreamEvent := [EvTimeout; EvError].

(** *** Shutdown and status *)

(** [this.instances.map(callback)], for what the callbacks do: [map]
    reads the length once and visits index [k] when the array still has
    an element there, also when a callback has shortened the array in
    the meantime. *)
Fixpoint map_from (n k : nat) (callback : loc → M LB unit) : M LB unit :=
  match n with
  | O => ret tt
  | S n' =>
      with_state (λ s,
        match instances s !! k with
        | Some instance => callback instance
        | None => ret tt
        end);;
      map_from n' (S k) callback
  end.

Definition array_map (callback : loc → M LB unit) : M LB unit :=
  with_state (λ s, map_from (length (instances s)) 0 callback).

(** [shutdown]: the body of [removeInstance] up to its first [await],
    the [splice] included, runs inside the callback of [map]; what it
    awaits touches the removed instance only. *)
Definition shutdown (outcomes : loc → RemoveOutcome) : M LB unit :=
  array_map (λ instance,
    try_catch (removeInstance (outcomes instance) instance) (λ _, ret tt)).

(** [getStatus], without the [dockerImage] of the configuration. *)
Record StatusEntry := mkEntry {
  entry_id : string;
  entry_containerId : string;
  entry_containerName : string;
  entry_port : Z;
  entry_healthy : bool;
  entry_status : Status;
  entry_activeRequests : Z;
  entry_totalRequests : Z;
  entry_responseTime : Z;
  entry_load : double;
}.

Record StatusReport := mkReport {
  report_total : nat;
  report_healthy : nat;
  report_instances : list StatusEntry;
}.

Definition getStatus (s : LB) : StatusReport :=
  let healthy := getHealthyInstances s in
  mkReport (length (instances s)) (length healthy)
    ((λ p, let i := p.2 in
           mkEntry (id i) (containerId i) (containerName i) (port i)
             (isHealthy i) (status i) (activeRequests i) (totalRequests i)
             (responseTime i) (getInstanceLoad i)) <$> objects s).

(** *** The controller as a transition system

    The segments above interleave: every [await] lets other callbacks run.
    A controller state is the object state together with the ports that
    [spawnInstance] has taken and not yet handed to [createContainer] (its
    local [port] across the first [await]).  A step is one synchronous
    segment of the source; a step that runs [getNextPort] is labelled with
    the port it returned.  The guards under which the timers and the
    listener start a segment are left out: every state the controller can
    reach is reachable here. *)

Record Sys := mkSys {
  lb : LB;
  pendingPorts : gset Z;
}.

Inductive step (cfg : AppConfig) : Sys → option Z → Sys → Prop :=
| step_getNextPort σ :
    (* spawnInstance: const port = this.getNextPort() *)
    step cfg σ (Some (getNextPort (lb σ)).1)
      (mkSys (getNextPort (lb σ)).2
             ({[ (getNextPort (lb σ)).1 ]} ∪ pendingPorts σ))
| step_createContainer_ok σ c port instance s' :
    (* spawnInstance: createContainer resolved; this.instances.push *)
    port ∈ pendingPorts σ →
    createContainer cfg c port (lb σ) = (Ok instance, s') →
    step cfg σ None (mkSys (push instance s').2 (pendingPorts σ ∖ {[port]}))
| step_createContainer_throw σ c port msg s' :
    (* spawnInstance: createContainer rejected *)
    port ∈ pendingPorts σ →
    createContainer cfg c port (lb σ) = (Throw msg, s') →
    step cfg σ None (mkSys s' (pendingPorts σ ∖ {[port]}))
| step_status σ instance st :
    (* waitForInstanceReady: instance.status = "starting" | "running" *)
    st = starting ∨ st = running →
    step cfg σ None
      (mkSys (update instance (set_status st) (lb σ)) (pendingPorts σ))
| step_probe σ p instance :
    (* a callback of checkInstanceHealth *)
    step cfg σ None
      (mkSys (checkInstanceHealth p instance (lb σ)).2 (pendingPorts σ))
| step_remove σ o instance :
    (* removeInstance, from the health check, the autoscaler, the warm-up
       or shutdown *)
    step cfg σ None
      (mkSys (removeInstance o instance (lb σ)).2 (pendingPorts σ))
| step_request σ req now1 now2 :
    (* handleRequest up to req.pipe *)
    step cfg σ None
      (mkSys (handleRequest req now1 now2 (lb σ)).2 (pendingPorts σ))
| step_deliver σ instance startTime ev res :
    (* a callback of a forwarded request *)
    step cfg σ None
      (mkSys (deliver instance startTime ev (res, lb σ)).2 (pendingPorts σ)).

Definition issued (label : option Z) : list Z :=
  match label with
  | Some p => [p]
  | None => []
  end.

(** [reachable cfg ports σ]: the controller can be in [σ], having issued
    [ports], oldest first, since its construction. *)
Inductive reachable (cfg : AppConfig) : list Z → Sys → Prop :=
| reachable_initial : reachable cfg [] (mkSys initial ∅)
| reachable_step ports σ label σ' :
    reachable cfg ports σ →
    step cfg σ label σ' →
    reachable cfg (ports ++ issued label) σ'.

End Docker.

(** * The subprocess variant, [module/index.ts] *)

Module Subprocess.

Record Instance := mkInstance {
  id : string;
  port : Z;
  lastHealth : Z;
  isHealthy : bool;
  activeRequests : Z;
  totalRequests : Z;
  lastRequestTime : Z;
  responseTime : Z;
}.

Record LB := mkLB {
  heap : gmap loc Instance;
  instances : list loc;
  nextPort : Z;
}.

Definition update (l : loc) (f : Instance → Instance) (s : LB) : LB :=
  mkLB (alter f l (heap s)) (instances s) (nextPort s).

Definition objects (s : LB) : list (loc * Instance) :=
  omap (λ l, pair l <$> heap s !! l) (instances s).

Definition getNextPort (s : LB) : Z * LB :=
  (nextPort s, mkLB (heap s) (instances s) (nextPort s + 1)).

Definition removeInstance (instance : loc) : M LB unit :=
  modify_state (λ s,
    match indexOf instance (instances s) with
    | Some index => mkLB (heap s) (splice1 index (instances s)) (nextPort s)
    | None => s
    end).

Inductive ProbeOutcome :=
| ProbeResponse (statusCode startTime now1 now2 : Z)
| ProbeError
| ProbeTimeout.

Definition set_unhealthy (i : Instance) : Instance :=
  mkInstance (id i) (port i) (lastHealth i) false (activeRequests i)
    (totalRequests i) (lastRequestTime i) (responseTime i).

Definition checkInstanceHealth (p : ProbeOutcome) (instance : loc)
  : M LB unit :=
  match p with
  | ProbeResponse statusCode startTime now1 now2 =>
      let responseTime := now1 - startTime in
      if decide (statusCode = 200) then
        modify_state (update instance (λ i,
          mkInstance (id i) (port i) now2 true (activeRequests i)
            (totalRequests i) (lastRequestTime i) responseTime))
      else
        modify_state (update instance set_unhealthy);;
        throw "Health check failed"
  | ProbeError =>
      modify_state (update instance set_unhealthy);;
      throw "Health check error"
  | ProbeTimeout =>
      modify_state (update instance set_unhealthy);;
      throw "Health check timeout"
  end.

(** [healthCheckAll] of this variant probes and does nothing else. *)
Definition healthCheckAll (probes : loc → ProbeOutcome) : M LB unit :=
  with_state (λ s,
    for_each (instances s)
      (λ instance,
         try_catch (checkInstanceHealth (probes instance) instance)
                   (λ _, ret tt))).

End Subprocess.

(** * Definitions used by the statements *)

Import Docker.

(** Two workers on ports 5001 and 5002, both healthy and running; the
    first has one request in flight. *)
Definition two_workers : LB :=
  mkLB (<[1%positive := mkInstance "a" "c1" 5001 "lb-a" 1000 true 1 4 1000 120 running]>
        (<[2%positive := mkInstance "b" "c2" 5002 "lb-b" 1000 true 0 3 900 150 running]> ∅))
       [1%positive; 2%positive] 5003.

(** One worker whose probes fail. *)
Definition one_unhealthy : LB :=
  mkLB (<[1%positive := mkInstance "a" "c1" 5001 "lb-a" 1000 false 0 4 1000 120 running]> ∅)
       [1%positive] 5002.

(** One healthy running worker that serves one request already. *)
Definition busy_worker : LB :=
  mkLB (<[1%positive := mkInstance "a" "c1" 5001 "lb-a" 1000 true 1 4 1000 120 running]> ∅)
       [1%positive] 5002.

(** [later i i']: the record [i'] is a later state of the object that was
    [i].  No segment assigns [id], [containerId], [port] or
    [containerName]; [totalRequests] only grows; [activeRequests] stays
    non-negative once it is. *)
Record later (i i' : DockerInstance) : Prop := mkLater {
  later_id : id i' = id i;
  later_containerId : containerId i' = containerId i;
  later_port : port i' = port i;
  later_containerName : containerName i' = containerName i;
  later_totalRequests : totalRequests i ≤ totalRequests i';
  later_activeRequests : 0 ≤ activeRequests i → 0 ≤ activeRequests i';
}.

(** [evolves s s']: no port was taken, no reference was added to the
    array, the order of the array is kept, and the objects are the same
    ones, each in a later state. *)
Definition evolves (s s' : LB) : Prop :=
  nextPort s' = nextPort s ∧
  instances s' `sublist_of` instances s ∧
  ∀ l, option_Forall2 later (heap s !! l) (heap s' !! l).

(** A computation all of whose runs evolve the state. *)
Definition preserves {A} (m : M LB A) : Prop := ∀ s, evolves s (m s).2.

(** What holds of the controller after it issued [ports]. *)
Record invariant (ports : list Z) (σ : Sys) : Prop := mkInvariant {
  inv_ports : ports = seqZ 5001 (Z.of_nat (length ports));
  inv_nextPort : nextPort (lb σ) = 5001 + Z.of_nat (length ports);
  inv_pending : ∀ p, p ∈ pendingPorts σ → 5001 ≤ p < nextPort (lb σ);
  inv_objects : ∀ l i, heap (lb σ) !! l = Some i →
    5001 ≤ port i < nextPort (lb σ) ∧ (port i ∉ pendingPorts σ) ∧
    0 ≤ activeRequests i;
  inv_distinct : ∀ l1 l2 i1 i2,
    heap (lb σ) !! l1 = Some i1 → heap (lb σ) !! l2 = Some i2 →
    port i1 = port i2 → l1 = l2;
  inv_NoDup : NoDup (instances (lb σ));
  inv_instances : ∀ l, l ∈ instances (lb σ) → is_Some (heap (lb σ) !! l);
}.

(** The configuration of the README and a controller that has spawned its
    first container. *)
Definition default_config : AppConfig :=
  mkConfig 2 10 5000 2000 (Double.of_Z 3) Double.half 30000 "my-app-lb".

Definition first_container : CreateOutcome :=
  mkCreateOutcome "3f2a9c1e-0000-4000-8000-000000000000"
    (Some "0123456789abcdef0123456789abcdef") 1000 1000.

Definition after_getNextPort : Sys :=
  mkSys (getNextPort initial).2 ({[ (getNextPort initial).1 ]} ∪ ∅).

Definition after_first_spawn : Sys :=
  mkSys (push 1%positive
           (createContainer default_config first_container 5001
              (lb after_getNextPort)).2).2
        (pendingPorts after_getNextPort ∖ {[5001]}).

(** The load and the average load as the specification writes them, in
    exact arithmetic:
    [load(w) = active_requests(w) + max(0, (response_time_ms(w) - 100) / 1000)]
    and [avg_load = mean(load(w) for w in healthy)], undefined when no
    worker is healthy. *)
Definition spec_load (i : DockerInstance) : Q :=
  (inject_Z (activeRequests i)
   + Qmax 0 ((inject_Z (responseTime i) - 100) / 1000))%Q.


(** Two healthy running workers of the same exact load 1.36: the first
    idle with a response time of 1460 ms, the second with one request in
    flight and a response time of 460 ms. *)
Definition tied_workers : LB :=
  mkLB (<[1%positive := mkInstance "a" "c1" 5001 "lb-a" 1000 true 0 4 1000 1460 running]>
        (<[2%positive := mkInstance "b" "c2" 5002 "lb-b" 1000 true 1 3 900 460 running]> ∅))
       [1%positive; 2%positive] 5003.


(** What [indexOf] followed by [splice] does to an array. *)
Definition remove_first `{EqDecision A} (x : A) (l : list A) : list A :=
  match indexOf x l with
  | Some index => splice1 index l
  | None => l
  end.

(** The subprocess pool with one worker. *)
Definition one_process : Subprocess.LB :=
  Subprocess.mkLB
    (<[1%positive := Subprocess.mkInstance "p" 5001 1000 false 0 0 1000 0]> ∅)
    [1%positive] 5002.

(** A Docker daemon that carries out every command. *)
Definition all_ok : RemoveOutcome := mkRemoveOutcome true true true.

(** The branch [autoScale] takes. *)
Inductive ScaleAction :=
| ScaleUp
| ScaleDown (candidate : loc * DockerInstance)
| NoAction.

Definition autoScale_action (cfg : AppConfig) (now : Z) (s : LB) : ScaleAction :=
  if shouldScaleUp cfg s then ScaleUp
  else if shouldScaleDown cfg now s then
    match candidate (getHealthyInstances s) with
    | Some p => ScaleDown p
    | None => NoAction
    end
  else NoAction.

(** Two healthy running workers without traffic, and a configuration
    that asks for one worker at least. *)
Definition idle_pool : LB :=
  mkLB (<[1%positive := mkInstance "a" "c1" 5001 "lb-a" 99000 true 0 4 1000 50 running]>
        (<[2%positive := mkInstance "b" "c2" 5002 "lb-b" 99000 true 0 3 900 60 running]> ∅))
       [1%positive; 2%positive] 5003.

Definition one_at_least : AppConfig :=
  mkConfig 1 10 5000 2000 (Double.of_Z 3) Double.half 30000 "my-app-lb".

(** What a probe, with its rejection caught, does to the probed object. *)
Definition probe_effect (p : ProbeOutcome) (i : DockerInstance) : DockerInstance :=
  match p with
  | ProbeResponse statusCode startTime now1 now2 =>
      if decide (statusCode = 200)
      then set_responseTime (now1 - startTime)
             (set_isHealthy true (set_lastHealth now2 i))
      else set_isHealthy false i
  | ProbeError | ProbeTimeout => set_isHealthy false i
  end.

(** The health fields that decide an eviction. *)
Definition same_health (i i' : DockerInstance) : Prop :=
  isHealthy i' = isHealthy i ∧ lastHealth i' = lastHealth i.

(** The state when all probes of a tick have settled. *)
Definition after_probes (probes : loc → ProbeOutcome) (s : LB) : LB :=
  foldl (λ s l, update l (probe_effect (probes l)) s) s (instances s).

(** A subprocess worker that has been unhealthy for 99 seconds. *)
Definition stale_process : Subprocess.LB :=
  Subprocess.mkLB
    (<[1%positive := Subprocess.mkInstance "p" 5001 1000 false 0 0 1000 0]> ∅)
    [1%positive] 5002.

(** A configuration with room for one worker, and the answers of the
    outside world to a second spawn: the container starts and its first
    probe succeeds. *)
Definition one_only : AppConfig :=
  mkConfig 1 1 5000 2000 (Double.of_Z 3) Double.half 30000 "my-app-lb".

Definition second_container : CreateOutcome :=
  mkCreateOutcome "7b1d4e2f-0000-4000-8000-000000000000"
    (Some "fedcba9876543210fedcba9876543210") 6000 6000.

Definition ready_at_once : list PollRound :=
  [mkPoll (Some "running") (ProbeResponse 200 6100 6110 6110)].

(** The elements at the positions 1, 3, 5, ... of an array. *)
Fixpoint odd_positions {A} (l : list A) : list A :=
  match l with
  | _ :: b :: t => b :: odd_positions t
  | _ => []
  end.


(** The sum of a counter over the workers of the pool. *)
Definition pool_sum (f : DockerInstance → Z) (s : LB) : Z :=
  foldr (λ p acc, f p.2 + acc) 0 (objects s).

(** Requests served one after the other, none of them completing in
    between: each with its two clock readings. *)
Fixpoint serve (reqs : list (Request * Z * Z)) (s : LB) : list Dispatch * LB :=
  match reqs with
  | [] => ([], s)
  | (req, now1, now2) :: rest =>
      let '(d, s1) := handleRequest req now1 now2 s in
      let '(ds, s2) := serve rest s1 in
      (d :: ds, s2)
  end.

(** A request that was sent upstream. *)
Definition forwarded (d : Dispatch) : Prop :=
  match d with
  | Forwarded _ _ _ => True
  | Rejected _ => False
  end.

(** * Properties *)

(** ** Numbers *)

Ltac double_order :=
  unfold Double.lt, Double.le;
  repeat match goal with
         | x : spec_float |- _ => destruct x as [[]|[]| |[] ? ?]
         end;
  unfold SFltb, SFleb, SFcompare;
  change (Pos.compare_cont Eq) with Pos.compare;
  repeat match goal with
         | |- context [Z.compare ?a ?b] => destruct (Z.compare_spec a b)
         | |- context [Pos.compare ?a ?b] => destruct (Pos.compare_spec a b)
         end;
  simpl; try done; try lia.

(** The operations on known values: [1 / 2] is the literal [0.5],
    [0.1 + 0.2] is [0.30000000000000004], above [0.3]; [0 / 0] is [NaN]
    and compares with nothing; [Math.max(0, -0.05)] is [0]. *)
Example double_arithmetic :
  let tenth := Double.div (Double.of_Z 1) (Double.of_Z 10) in
  let fifth := Double.div (Double.of_Z 2) (Double.of_Z 10) in
  let three_tenths := Double.div (Double.of_Z 3) (Double.of_Z 10) in
  let nan := Double.div (Double.of_Z 0) (Double.of_Z 0) in
  Double.of_Z 0 = S754_zero false ∧
  Double.of_Z 3 = S754_finite false 6755399441055744 (-51) ∧
  Double.div (Double.of_Z 1) (Double.of_Z 2) = Double.half ∧
  Double.add tenth fifth = S754_finite false 5404319552844596 (-54) ∧
  three_tenths = S754_finite false 5404319552844595 (-54) ∧
  Double.lt three_tenths (Double.add tenth fifth) = true ∧
  Double.sub (Double.of_Z 100) (Double.of_Z 100) = S754_zero false ∧
  nan = S754_nan ∧
  Double.lt nan (Double.of_Z 1) = false ∧
  Double.lt (Double.of_Z 1) nan = false ∧
  Double.max (Double.of_Z 0)
    (Double.div (Double.sub (Double.of_Z 50) (Double.of_Z 100))
       (Double.of_Z 1000)) = Double.of_Z 0 ∧
  Double.max (Double.of_Z 0) nan = S754_nan ∧
  Double.max (Double.of_Z 0) tenth = tenth.
Proof. vm_compute. repeat split; reflexivity. Qed.

Lemma double_lt_le (x y : double) : Double.lt x y = true → Double.le x y = true.
Proof. double_order. Qed.

Lemma double_lt_irrefl (x : double) : Double.lt x x = false.
Proof. double_order. Qed.

Lemma double_le_lt_trans (x y z : double) :
  Double.le x y = true → Double.lt y z = true → Double.lt x z = true.
Proof. double_order. Qed.

Lemma double_lt_le_trans (x y z : double) :
  Double.lt x y = true → Double.le y z = true → Double.lt x z = true.
Proof. double_order. Qed.

Lemma double_le_lt_asym (x y : double) :
  Double.le x y = true → Double.lt y x = true → False.
Proof. double_order. Qed.

(** ** Arrays *)

Section arrays.
Context {A : Type}.

Lemma filter_split (P : A → Prop) `{!∀ x, Decision (P x)} (l : list A) :
  ∀ pre' x post',
    filter P l = pre' ++ x :: post' →
    ∃ pre post, l = pre ++ x :: post ∧ P x ∧
                filter P pre = pre' ∧ filter P post = post'.
Proof.
  induction l as [|y l IH]; intros pre' x post' Heq.
  - rewrite filter_nil in Heq. by destruct pre'.
  - rewrite filter_cons in Heq. destruct (decide (P y)) as [Hy|Hy].
    + destruct pre' as [|z pre']; simpl in Heq;
        injection Heq as -> Heq.
      * exists [], l. by rewrite filter_nil.
      * destruct (IH _ _ _ Heq) as (pre & post & -> & Hx & <- & <-).
        exists (z :: pre), post. by rewrite filter_cons_True.
    + destruct (IH _ _ _ Heq) as (pre & post & -> & Hx & <- & <-).
      exists (y :: pre), post. by rewrite filter_cons_False.
Qed.

Lemma omap_split {B} (f : A → option B) (l : list A) :
  ∀ pre' y post',
    omap f l = pre' ++ y :: post' →
    ∃ pre x post, l = pre ++ x :: post ∧ f x = Some y ∧
                  omap f pre = pre' ∧ omap f post = post'.
Proof.
  induction l as [|a l IH]; intros pre' y post' Heq.
  - by destruct pre'.
  - simpl in Heq. destruct (f a) as [b|] eqn:Hfa.
    + destruct pre' as [|z pre']; simpl in Heq;
        injection Heq as -> Heq.
      * by exists [], a, l.
      * destruct (IH _ _ _ Heq) as (pre & x & post & -> & Hx & <- & <-).
        exists (a :: pre), x, post. simpl. by rewrite Hfa.
    + destruct (IH _ _ _ Heq) as (pre & x & post & -> & Hx & <- & <-).
      exists (a :: pre), x, post. simpl. by rewrite Hfa.
Qed.

(** The left fold that keeps the smaller of two elements, the older one
    unless the newer is strictly smaller, ends on the first minimum: no
    element before it is as small, no element after it is smaller. *)
Lemma foldl_min_first (w : A → double) (t : list A) (x : A) :
  let keep := λ min a, if Double.lt (w a) (w min) then a else min in
  ∃ pre post,
    x :: t = pre ++ foldl keep x t :: post ∧
    (∀ y, y ∈ pre → Double.le (w y) (w (foldl keep x t)) = false) ∧
    (∀ y, y ∈ post → Double.lt (w y) (w (foldl keep x t)) = false).
Proof.
  intros keep. induction t as [|a t IH] using rev_ind.
  - exists [], []. split_and!; [done|intros y Hy..]; by apply elem_of_nil in Hy.
  - rewrite foldl_snoc. destruct IH as (pre & post & Heq & Hpre & Hpost).
    set (r := foldl keep x t) in *.
    assert (keep r a = if Double.lt (w a) (w r) then a else r) as -> by done.
    destruct (Double.lt (w a) (w r)) eqn:Hlt.
    + exists (x :: t), []. split_and!.
      * by rewrite app_comm_cons.
      * intros y Hy. rewrite Heq in Hy.
        destruct (Double.le (w y) (w a)) eqn:Hya; [exfalso|done].
        pose proof (double_le_lt_trans _ _ _ Hya Hlt) as Hyr.
        apply elem_of_app in Hy as [Hy|Hy].
        { specialize (Hpre _ Hy). apply double_lt_le in Hyr. congruence. }
        apply elem_of_cons in Hy as [->|Hy].
        { rewrite double_lt_irrefl in Hyr. discriminate Hyr. }
        specialize (Hpost _ Hy). congruence.
      * intros y Hy. by apply elem_of_nil in Hy.
    + exists pre, (post ++ [a]). split_and!.
      * rewrite app_comm_cons, Heq. by rewrite <-app_assoc.
      * done.
      * intros y Hy. apply elem_of_app in Hy as [Hy|Hy]; [by apply Hpost|].
        by apply list_elem_of_singleton in Hy as ->.
Qed.
End arrays.

(** ** The dispatcher *)

Lemma elem_of_objects (s : LB) (l : loc) (i : DockerInstance) :
  (l, i) ∈ objects s ↔ l ∈ instances s ∧ heap s !! l = Some i.
Proof.
  unfold objects. rewrite list_elem_of_omap. split.
  - intros (l' & Hin & Hl').
    destruct (heap s !! l') as [i'|] eqn:Hh; simplify_eq/=. done.
  - intros [Hin Hh]. exists l. by rewrite Hh.
Qed.

Lemma elem_of_getHealthyInstances (s : LB) (l : loc) (i : DockerInstance) :
  (l, i) ∈ getHealthyInstances s ↔
  l ∈ instances s ∧ heap s !! l = Some i ∧ healthyRunning i.
Proof.
  unfold getHealthyInstances.
  rewrite list_elem_of_filter, elem_of_objects. simpl. tauto.
Qed.

Lemma objects_split (s : LB) pre' (p : loc * DockerInstance) post' :
  objects s = pre' ++ p :: post' →
  ∃ pre post,
    instances s = pre ++ p.1 :: post ∧ heap s !! p.1 = Some p.2 ∧
    (∀ l i, l ∈ pre → heap s !! l = Some i → (l, i) ∈ pre') ∧
    (∀ l i, l ∈ post → heap s !! l = Some i → (l, i) ∈ post').
Proof.
  intros Heq. apply omap_split in Heq
    as (pre & l & post & Hinst & Hl & Hpre & Hpost).
  destruct (heap s !! l) as [i|] eqn:Hh; simplify_eq/=.
  exists pre, post. split_and!; [done..| |].
  - intros l' i' Hin Hh'. apply list_elem_of_omap. exists l'. by rewrite Hh'.
  - intros l' i' Hin Hh'. apply list_elem_of_omap. exists l'. by rewrite Hh'.
Qed.

(** C1.  When some worker of the pool is healthy and running,
    [pickInstance] returns a healthy running worker of the pool.  With
    the load [activeRequests + Math.max(0, (responseTime - 100) / 1000)]
    computed in binary64, each operation rounded, as the code computes
    it: no healthy running worker has a smaller load than the returned
    one, and no healthy running worker inserted before it has a load as
    small.  Among the workers of minimal computed load it is the
    earliest-inserted one. *)
Theorem pickInstance_least_loaded (s : LB) :
  (∃ l i, l ∈ instances s ∧ heap s !! l = Some i ∧
          isHealthy i = true ∧ status i = running) →
  let load := λ i : DockerInstance,
    Double.add (Double.of_Z (activeRequests i))
      (Double.max (Double.of_Z 0)
         (Double.div
            (Double.sub (Double.of_Z (responseTime i)) (Double.of_Z 100))
            (Double.of_Z 1000))) in
  ∃ l i pre post,
    pickInstance s = Some (l, i) ∧
    heap s !! l = Some i ∧ isHealthy i = true ∧ status i = running ∧
    instances s = pre ++ l :: post ∧
    (∀ l' i', l' ∈ instances s → heap s !! l' = Some i' →
              isHealthy i' = true → status i' = running →
              Double.lt (load i') (load i) = false) ∧
    (∀ l' i', l' ∈ pre → heap s !! l' = Some i' →
              isHealthy i' = true → status i' = running →
              Double.le (load i') (load i) = false).
Proof.
  intros (l0 & i0 & Hin0 & Hh0 & Hhealthy0 & Hrun0) load.
  assert ((l0, i0) ∈ getHealthyInstances s) as Hne.
  { apply elem_of_getHealthyInstances. by repeat split. }
  unfold pickInstance.
  destruct (getHealthyInstances s) as [|x t] eqn:Hhealthy.
  { by apply elem_of_nil in Hne. }
  rewrite decide_False by done. simpl.
  destruct (foldl_min_first (λ p, getInstanceLoad p.2) t x)
    as (pre1 & post1 & Hsplit1 & Hpre1 & Hpost1).
  simpl in *.
  set (r := foldl _ x t) in *.
  rewrite <-Hhealthy in Hsplit1. unfold getHealthyInstances in Hsplit1.
  apply filter_split in Hsplit1
    as (pre2 & post2 & Hsplit2 & [Hr1 Hr2] & Hpre2 & Hpost2).
  apply objects_split in Hsplit2 as (pre & post & Hinst & Hr & Hpre & Hpost).
  assert (∀ l' i', l' ∈ pre → heap s !! l' = Some i' →
                   isHealthy i' = true → status i' = running →
                   Double.le (load i') (load r.2) = false) as Hbefore.
  { intros l' i' Hin' Hh' Hhealthy' Hrun'.
    apply (Hpre1 (l', i')). rewrite <-Hpre2.
    apply list_elem_of_filter. split; [done|]. by apply Hpre. }
  exists r.1, r.2, pre, post. split_and!; try done.
  - by destruct r.
  - intros l' i' Hin' Hh' Hhealthy' Hrun'. rewrite Hinst in Hin'.
    apply elem_of_app in Hin' as [Hin'|Hin'].
    + specialize (Hbefore _ _ Hin' Hh' Hhealthy' Hrun').
      destruct (Double.lt (load i') (load r.2)) eqn:Hlt; [|done].
      apply double_lt_le in Hlt. congruence.
    + apply elem_of_cons in Hin' as [->|Hin'].
      * rewrite Hr in Hh'. injection Hh' as <-. apply double_lt_irrefl.
      * apply (Hpost1 (l', i')). rewrite <-Hpost2.
        apply list_elem_of_filter. split; [done|]. by apply Hpost.
Qed.

Lemma pickInstance_least_loaded_witness :
  let s := tied_workers in
  let load := λ i : DockerInstance,
    Double.add (Double.of_Z (activeRequests i))
      (Double.max (Double.of_Z 0)
         (Double.div
            (Double.sub (Double.of_Z (responseTime i)) (Double.of_Z 100))
            (Double.of_Z 1000))) in
  ∃ l i pre post,
    pickInstance s = Some (l, i) ∧
    heap s !! l = Some i ∧ isHealthy i = true ∧ status i = running ∧
    instances s = pre ++ l :: post ∧
    (∀ l' i', l' ∈ instances s → heap s !! l' = Some i' →
              isHealthy i' = true → status i' = running →
              Double.lt (load i') (load i) = false) ∧
    (∀ l' i', l' ∈ pre → heap s !! l' = Some i' →
              isHealthy i' = true → status i' = running →
              Double.le (load i') (load i) = false).
Proof.
  apply (pickInstance_least_loaded tied_workers).
  exists 1%positive,
    (mkInstance "a" "c1" 5001 "lb-a" 1000 true 0 4 1000 1460 running).
  split; [apply elem_of_cons; by left|].
  split; [vm_compute; reflexivity|]. split; reflexivity.
Defined.

(** The claim as the specification words it, with the load in exact
    arithmetic, fails on [tied_workers].  Both workers have the exact
    load 34/25, so the earliest-inserted worker of minimal load is the
    first one.  The code computes 1.36 for the first worker and
    1.3599999999999999 for the second, and returns the second: a healthy
    running worker inserted before the returned one does not have a
    greater load. *)
Lemma pickInstance_later_on_exact_tie :
  let w1 := mkInstance "a" "c1" 5001 "lb-a" 1000 true 0 4 1000 1460 running in
  let w2 := mkInstance "b" "c2" 5002 "lb-b" 1000 true 1 3 900 460 running in
  instances tied_workers = [1%positive; 2%positive] ∧
  heap tied_workers !! 1%positive = Some w1 ∧
  heap tied_workers !! 2%positive = Some w2 ∧
  healthyRunning w1 ∧ healthyRunning w2 ∧
  (spec_load w1 == 34 # 25)%Q ∧ (spec_load w2 == 34 # 25)%Q ∧
  getInstanceLoad w1 = S754_finite false 6124895493223875 (-52) ∧
  getInstanceLoad w2 = S754_finite false 6124895493223874 (-52) ∧
  pickInstance tied_workers = Some (2%positive, w2) ∧
  ¬ (∃ l i pre post,
       pickInstance tied_workers = Some (l, i) ∧
       instances tied_workers = pre ++ l :: post ∧
       (∀ l' i', l' ∈ instances tied_workers →
                 heap tied_workers !! l' = Some i' →
                 isHealthy i' = true → status i' = running →
                 (spec_load i <= spec_load i')%Q) ∧
       (∀ l' i', l' ∈ pre → heap tied_workers !! l' = Some i' →
                 isHealthy i' = true → status i' = running →
                 (spec_load i < spec_load i')%Q)).
Proof.
  intros w1 w2.
  assert (pickInstance tied_workers = Some (2%positive, w2)) as Hpick
    by (vm_compute; reflexivity).
  split; [reflexivity|].
  do 2 (split; [vm_compute; reflexivity|]).
  do 2 (split; [split; reflexivity|]).
  do 4 (split; [vm_compute; reflexivity|]).
  split; [exact Hpick|].
  intros (l & i & pre & post & Hp & Hinst & _ & Hbefore).
  rewrite Hpick in Hp. injection Hp as <- <-.
  assert (pre = [1%positive]) as ->.
  { change (instances tied_workers) with [1%positive; 2%positive] in Hinst.
    clear -Hinst. destruct pre as [|a [|b pre]]; simpl in Hinst.
    - discriminate Hinst.
    - injection Hinst as <- _. reflexivity.
    - injection Hinst as _ _ Hnil. destruct pre; discriminate Hnil. }
  assert (spec_load w2 < spec_load w1)%Q as Hlt.
  { apply (Hbefore 1%positive w1).
    - apply list_elem_of_singleton. reflexivity.
    - vm_compute. reflexivity.
    - reflexivity.
    - reflexivity. }
  vm_compute in Hlt. discriminate Hlt.
Qed.

Example pickInstance_two_workers :
  fst <$> pickInstance two_workers = Some 2%positive.
Proof. vm_compute. reflexivity. Qed.

(** ** The data path *)

Lemma getHealthyInstances_nil (s : LB) :
  (∀ l i, l ∈ instances s → heap s !! l = Some i →
          ¬ (isHealthy i = true ∧ status i = running)) →
  getHealthyInstances s = [].
Proof.
  intros Hnone. destruct (getHealthyInstances s) as [|[l i] t] eqn:Heq; [done|].
  assert ((l, i) ∈ getHealthyInstances s) as Hin by (rewrite Heq; left).
  apply elem_of_getHealthyInstances in Hin as (Hin & Hh & Hp).
  by destruct (Hnone l i Hin Hh).
Qed.

(** C4.  When no worker of the pool is healthy and running,
    [handleRequest] answers 503 with the body
    [{error: "No healthy backend servers available", instances: <pool
    size>, healthy: 0}]; it issues no upstream request (the result is
    [Rejected], not [Forwarded]) and the controller state, hence every
    counter of every worker, is unchanged. *)
Theorem handleRequest_no_healthy (req : Request) (now1 now2 : Z) (s : LB) :
  (∀ l i, l ∈ instances s → heap s !! l = Some i →
          ¬ (isHealthy i = true ∧ status i = running)) →
  handleRequest req now1 now2 s =
    (Rejected (Reply503 "No healthy backend servers available"
                 (length (instances s)) 0), s)
  ∧ length (getHealthyInstances s) = 0%nat.
Proof.
  intros Hnone. apply getHealthyInstances_nil in Hnone.
  unfold handleRequest, pickInstance. rewrite Hnone. done.
Qed.

Lemma handleRequest_no_healthy_witness :
  handleRequest (mkRequest "/api/user" "GET") 2000 2000 one_unhealthy =
    (Rejected (Reply503 "No healthy backend servers available" 1 0),
     one_unhealthy)
  ∧ length (getHealthyInstances one_unhealthy) = 0%nat.
Proof.
  apply (handleRequest_no_healthy (mkRequest "/api/user" "GET") 2000 2000
           one_unhealthy).
  intros l i Hin Hh [Hhealthy _].
  apply list_elem_of_singleton in Hin as ->.
  vm_compute in Hh. injection Hh as <-. discriminate Hhealthy.
Defined.

Lemma lookup_update (l l' : loc) (f : DockerInstance → DockerInstance) (s : LB) :
  heap (update l f s) !! l' =
  if decide (l = l') then f <$> heap s !! l' else heap s !! l'.
Proof.
  unfold update. simpl. rewrite lookup_alter.
  destruct (decide (l = l')) as [->|]; done.
Qed.

Lemma instances_update (l : loc) (f : DockerInstance → DockerInstance) (s : LB) :
  instances (update l f s) = instances s.
Proof. done. Qed.

Lemma nextPort_update (l : loc) (f : DockerInstance → DockerInstance) (s : LB) :
  nextPort (update l f s) = nextPort s.
Proof. done. Qed.

(** The callbacks of a forwarded request touch the chosen instance only,
    and only its [activeRequests] and [responseTime]. *)
Lemma deliver_lookup (instance : loc) (startTime : Z) (ev : UpstreamEvent)
  (res : Res) (s : LB) (l : loc) :
  heap (deliver instance startTime ev (res, s)).2 !! l =
  if decide (instance = l) then
    match ev with
    | EvResponse => heap s !! l
    | EvEnd now => (λ i, set_responseTime (now - startTime) (decrement i)) <$> heap s !! l
    | EvError | EvTimeout => decrement <$> heap s !! l
    end
  else heap s !! l.
Proof.
  destruct res as [sent r].
  destruct ev, sent; simpl; rewrite ?lookup_alter;
    repeat case_decide; subst; try done; by destruct (heap s !! l).
Qed.

(** C9.  The error callback (502) and the timeout callback (504) of
    [handleRequest] decrement [activeRequests] of the chosen worker,
    saturating at 0, and leave [responseTime] of every worker as it was,
    also when the error callback follows the timeout callback; they answer
    502 and 504 when no header was sent.  Only the [end] callback of the
    proxied response writes [responseTime], with [now - startTime]. *)
Theorem responseTime_written_on_end_only
  (instance : loc) (startTime : Z) (res : Res) (s : LB) :
  (* 502 path *)
  (∀ l, responseTime <$> heap (deliver instance startTime EvError (res, s)).2 !! l
        = responseTime <$> heap s !! l) ∧
  activeRequests <$> heap (deliver instance startTime EvError (res, s)).2 !! instance
    = (λ i, Z.max 0 (activeRequests i - 1)) <$> heap s !! instance ∧
  replied (deliver instance startTime EvError (mkRes false None, s)).1
    = Some (Reply502 "Bad Gateway" "Backend server error") ∧
  (* 504 path *)
  (∀ l, responseTime <$> heap (deliver instance startTime EvTimeout (res, s)).2 !! l
        = responseTime <$> heap s !! l) ∧
  activeRequests <$> heap (deliver instance startTime EvTimeout (res, s)).2 !! instance
    = (λ i, Z.max 0 (activeRequests i - 1)) <$> heap s !! instance ∧
  replied (deliver instance startTime EvTimeout (mkRes false None, s)).1
    = Some (Reply504 "Gateway Timeout" "Backend server timeout") ∧
  (∀ l, responseTime <$> heap (deliver_all instance startTime timeout_path (res, s)).2 !! l
        = responseTime <$> heap s !! l) ∧
  (* response headers *)
  (deliver instance startTime EvResponse (res, s)).2 = s ∧
  (* completion *)
  (∀ now,
     responseTime <$> heap (deliver instance startTime (EvEnd now) (res, s)).2 !! instance
       = (λ _, now - startTime) <$> heap s !! instance ∧
     activeRequests <$> heap (deliver instance startTime (EvEnd now) (res, s)).2 !! instance
       = (λ i, Z.max 0 (activeRequests i - 1)) <$> heap s !! instance).
Proof.
  split_and!.
  - intros l. rewrite deliver_lookup. case_decide; [|done].
    by destruct (heap s !! l).
  - rewrite deliver_lookup, decide_True by done. by destruct (heap s !! instance).
  - done.
  - intros l. rewrite deliver_lookup. case_decide; [|done].
    by destruct (heap s !! l).
  - rewrite deliver_lookup, decide_True by done. by destruct (heap s !! instance).
  - done.
  - intros l. unfold deliver_all, timeout_path. cbn [foldl].
    destruct (deliver instance startTime EvTimeout (res, s)) as [res1 s1] eqn:H1.
    rewrite deliver_lookup.
    assert (heap s1 !! l = heap (deliver instance startTime EvTimeout (res, s)).2 !! l)
      as -> by (by rewrite H1).
    rewrite deliver_lookup. case_decide; [|done]. by destruct (heap s !! l).
  - done.
  - intros now. rewrite !deliver_lookup, !decide_True by done.
    by destruct (heap s !! instance).
Qed.

(** When Node delivers one callback that decrements, [activeRequests] is
    back at its value before the dispatch. *)
Lemma dispatch_then_one_decrement (i : DockerInstance) :
  0 ≤ activeRequests i →
  activeRequests (decrement (set_activeRequests (activeRequests i + 1) i))
  = activeRequests i.
Proof. intros Hi. simpl. lia. Qed.

(** C2.  The code at the failing input: the only worker has one request in
    flight; a second request is dispatched to it ([activeRequests] 1 → 2)
    and its upstream times out.  The timeout callback decrements and
    destroys the upstream request, the error callback that Node then runs
    decrements again: [activeRequests] ends at 0, not at its value 1 before
    the dispatch. *)
Theorem timeout_path_decrements_twice :
  let req := mkRequest "/api/user" "GET" in
  let '(d, s1) := handleRequest req 2000 2000 busy_worker in
  let '(res, s2) := deliver_all 1%positive 2000 timeout_path (mkRes false None, s1) in
  d = Forwarded 1%positive 2000 (mkOptions "localhost" 5001 "/api/user" "GET" 30000) ∧
  activeRequests <$> heap busy_worker !! 1%positive = Some 1 ∧
  activeRequests <$> heap s1 !! 1%positive = Some 2 ∧
  replied res = Some (Reply504 "Gateway Timeout" "Backend server timeout") ∧
  activeRequests <$> heap s2 !! 1%positive = Some 0.
Proof. vm_compute. repeat split; reflexivity. Qed.

(** ** What every segment keeps *)

#[export] Instance later_refl : Reflexive later.
Proof. intros i. split; (done || lia). Qed.

#[export] Instance later_trans : Transitive later.
Proof.
  intros i j k [] []. split; first [congruence | lia | auto].
Qed.

#[export] Instance evolves_refl : Reflexive evolves.
Proof. intros s. split_and!; done. Qed.

#[export] Instance evolves_trans : Transitive evolves.
Proof.
  intros s1 s2 s3 (Hp1 & Hi1 & Hh1) (Hp2 & Hi2 & Hh2). split_and!.
  - congruence.
  - by etrans.
  - intros l. etrans; [apply Hh1|apply Hh2].
Qed.

Lemma evolves_update (l : loc) (f : DockerInstance → DockerInstance) (s : LB) :
  (∀ i, later i (f i)) → evolves s (update l f s).
Proof.
  intros Hf. split_and!; [done..|]. intros l'. rewrite lookup_update.
  case_decide; [|done]. destruct (heap s !! l'); constructor. apply Hf.
Qed.

Lemma evolves_splice (index : nat) (s : LB) :
  evolves s (set_instances (splice1 index (instances s)) s).
Proof. split_and!; [done| apply sublist_delete | done]. Qed.

Section preserves.
Context {A B : Type}.

Lemma preserves_ret (a : A) : preserves (ret a).
Proof. intros s. done. Qed.

Lemma preserves_throw (msg : string) : preserves (throw (A:=A) msg).
Proof. intros s. done. Qed.

Lemma preserves_bind (m : M LB A) (k : A → M LB B) :
  preserves m → (∀ a, preserves (k a)) → preserves (bind m k).
Proof.
  intros Hm Hk s. unfold bind. specialize (Hm s).
  destruct (m s) as [[a|e] s']; [|done]. etrans; [done|apply Hk].
Qed.

Lemma preserves_try_catch (body : M LB A) (handler : string → M LB A) :
  preserves body → (∀ e, preserves (handler e)) →
  preserves (try_catch body handler).
Proof.
  intros Hb Hh s. unfold try_catch. specialize (Hb s).
  destruct (body s) as [[a|e] s']; [done|]. etrans; [done|apply Hh].
Qed.

Lemma preserves_with_state (k : LB → M LB A) :
  (∀ s, preserves (k s)) → preserves (with_state k).
Proof. intros Hk s. apply Hk. Qed.
End preserves.

Lemma preserves_for_each {A} (l : list A) (body : A → M LB unit) :
  (∀ x, preserves (body x)) → preserves (for_each l body).
Proof.
  intros Hb. induction l as [|x l IH]; simpl.
  - apply preserves_ret.
  - apply preserves_bind; [apply Hb|done].
Qed.

Lemma preserves_modify (f : LB → LB) :
  (∀ s, evolves s (f s)) → preserves (modify_state f).
Proof. intros Hf s. apply Hf. Qed.

Lemma preserves_mbind {A B} (m : M LB A) (k : A → M LB B) :
  preserves m → (∀ a, preserves (k a)) → preserves (m ≫= k).
Proof. apply preserves_bind. Qed.

Lemma later_set_status v i : later i (set_status v i).
Proof. split; simpl; (done || lia). Qed.
Lemma later_set_isHealthy v i : later i (set_isHealthy v i).
Proof. split; simpl; (done || lia). Qed.
Lemma later_set_lastHealth v i : later i (set_lastHealth v i).
Proof. split; simpl; (done || lia). Qed.
Lemma later_set_responseTime v i : later i (set_responseTime v i).
Proof. split; simpl; (done || lia). Qed.
Lemma later_set_lastRequestTime v i : later i (set_lastRequestTime v i).
Proof. split; simpl; (done || lia). Qed.
Lemma later_decrement i : later i (decrement i).
Proof. split; simpl; (done || lia). Qed.
Lemma later_increment_active i :
  later i (set_activeRequests (activeRequests i + 1) i).
Proof. split; simpl; (done || lia). Qed.
Lemma later_increment_total i :
  later i (set_totalRequests (totalRequests i + 1) i).
Proof. split; simpl; (done || lia). Qed.

Create HintDb lb discriminated.
#[export] Hint Resolve preserves_ret preserves_throw preserves_modify
  preserves_with_state preserves_for_each evolves_update evolves_splice
  later_set_status later_set_isHealthy later_set_lastHealth
  later_set_responseTime later_set_lastRequestTime later_decrement
  later_increment_active later_increment_total : lb.

Ltac preserves_step :=
  lazymatch goal with
  | |- preserves (mbind _ _) => apply preserves_mbind
  | |- preserves (bind _ _) => apply preserves_bind
  | |- preserves (try_catch _ _) => apply preserves_try_catch
  | |- preserves (for_each _ _) => apply preserves_for_each
  | |- preserves (with_state _) => apply preserves_with_state
  | |- preserves (modify_state _) => apply preserves_modify
  | |- preserves (ret _) => apply preserves_ret
  | |- preserves (throw _) => apply preserves_throw
  | |- ∀ _, _ => intro
  end.

Lemma preserves_executeDockerCommand ok : preserves (executeDockerCommand ok).
Proof. destruct ok; simpl; preserves_step. Qed.

Lemma preserves_removeContainer o instance :
  preserves (removeContainer o instance).
Proof.
  unfold removeContainer.
  repeat preserves_step;
    first [ apply preserves_executeDockerCommand
          | apply evolves_update, later_set_status ].
Qed.

Lemma preserves_removeInstance o instance :
  preserves (removeInstance o instance).
Proof.
  unfold removeInstance. preserves_step.
  - preserves_step. intros s.
    destruct (indexOf instance (instances s)); [apply evolves_splice|reflexivity].
  - intros _. apply preserves_removeContainer.
Qed.

Lemma preserves_checkInstanceHealth p instance :
  preserves (checkInstanceHealth p instance).
Proof.
  destruct p; simpl; [case_decide|..]; repeat preserves_step;
    try apply evolves_update, later_set_isHealthy.
  apply evolves_update. intros i.
  etrans; [apply later_set_lastHealth|].
  etrans; [apply later_set_isHealthy|]. apply later_set_responseTime.
Qed.

Lemma preserves_waitLoop rounds o instance :
  preserves (waitLoop rounds o instance).
Proof.
  induction rounds as [|r rest IH]; simpl.
  - repeat preserves_step; apply preserves_removeInstance.
  - case_decide; [|done].
    repeat preserves_step;
      first [ apply evolves_update, later_set_status
            | apply preserves_checkInstanceHealth
            | idtac ].
    destruct (instanceHealthy instance _); [preserves_step|done].
Qed.

Lemma preserves_waitForInstanceReady rounds o instance :
  preserves (waitForInstanceReady rounds o instance).
Proof.
  unfold waitForInstanceReady. repeat preserves_step.
  - apply evolves_update, later_set_status.
  - apply preserves_waitLoop.
Qed.

Lemma preserves_healthCheckAll probes now outcomes :
  preserves (healthCheckAll probes now outcomes).
Proof.
  unfold healthCheckAll.
  repeat preserves_step;
    first [ apply preserves_checkInstanceHealth | apply preserves_removeInstance ].
Qed.

Lemma evolves_handleRequest req now1 now2 s :
  evolves s (handleRequest req now1 now2 s).2.
Proof.
  unfold handleRequest. destruct (pickInstance s) as [[l i]|]; [|done]. simpl.
  etrans; [|apply evolves_update, later_set_lastRequestTime].
  etrans; [|apply evolves_update, later_increment_total].
  apply evolves_update, later_increment_active.
Qed.

Lemma evolves_deliver instance startTime ev res s :
  evolves s (deliver instance startTime ev (res, s)).2.
Proof.
  destruct res as [sent r], ev, sent; simpl; try done;
    try apply evolves_update, later_decrement.
  all: etrans; [apply evolves_update, later_decrement
               |apply evolves_update, later_set_responseTime].
Qed.

(** ** Reachable states *)

Lemma evolves_lookup (s s' : LB) (l : loc) (i' : DockerInstance) :
  evolves s s' → heap s' !! l = Some i' →
  ∃ i, heap s !! l = Some i ∧ later i i'.
Proof.
  intros (_ & _ & Hh) Hl. specialize (Hh l). rewrite Hl in Hh.
  inversion Hh; subst. eauto.
Qed.

Lemma evolves_is_Some (s s' : LB) (l : loc) :
  evolves s s' → is_Some (heap s !! l) → is_Some (heap s' !! l).
Proof.
  intros (_ & _ & Hh) [i Hl]. specialize (Hh l). rewrite Hl in Hh.
  inversion Hh; subst. eauto.
Qed.

Lemma invariant_evolves (ports : list Z) (σ : Sys) (s' : LB) :
  invariant ports σ → evolves (lb σ) s' →
  invariant ports (mkSys s' (pendingPorts σ)).
Proof.
  destruct σ as [s pend].
  intros [Hports Hnext Hpend Hobj Hdist Hnd Hinst] Hev.
  pose proof Hev as (Hnext' & Hsub & _). simpl in *.
  split; simpl; rewrite ?Hnext'; try done.
  - intros l i' Hl.
    destruct (evolves_lookup _ _ _ _ Hev Hl) as (i & Hi & Hlater).
    destruct Hlater as [_ _ Hport _ _ Hact].
    destruct (Hobj _ _ Hi) as (? & ? & ?). rewrite Hport. auto.
  - intros l1 l2 i1' i2' H1 H2 Heq.
    destruct (evolves_lookup _ _ _ _ Hev H1) as (i1 & Hi1 & Hl1).
    destruct (evolves_lookup _ _ _ _ Hev H2) as (i2 & Hi2 & Hl2).
    apply (Hdist l1 l2 i1 i2); [done..|].
    rewrite <-(later_port _ _ Hl1), <-(later_port _ _ Hl2). done.
  - by eapply sublist_NoDup.
  - intros l Hl. eapply evolves_is_Some; [done|]. apply Hinst.
    by eapply elem_of_sublist.
Qed.

Lemma reachable_invariant (cfg : AppConfig) (ports : list Z) (σ : Sys) :
  reachable cfg ports σ → invariant ports σ.
Proof.
  induction 1 as [|ports σ label σ' Hreach IH Hstep].
  { split; simpl; try done.
    - constructor.
    - intros l Hl. by apply elem_of_nil in Hl. }
  destruct Hstep; simpl in *; rewrite ?app_nil_r;
    try (eapply invariant_evolves; [done|]).
  - (* getNextPort *)
    destruct IH as [Hports Hnext Hpend Hobj Hdist Hnd Hinst]. simpl in *.
    split; simpl; try done.
    + rewrite length_app. simpl length.
      replace (length ports + 1)%nat with (S (length ports)) by lia.
      rewrite seqZ_S, <-Hports. by rewrite Hnext.
    + rewrite length_app. simpl. lia.
    + intros p [->%elem_of_singleton|Hp]%elem_of_union; [lia|].
      specialize (Hpend _ Hp). lia.
    + intros l i Hl. destruct (Hobj _ _ Hl) as (? & ? & ?).
      split; [lia|split; [|done]].
      intros [Heq%elem_of_singleton|Hp]%elem_of_union; [lia|done].
  - (* createContainer resolved, push *)
    destruct IH as [Hports Hnext Hpend Hobj Hdist Hnd Hinst]. simpl in *.
    unfold createContainer in H0. destruct (run_stdout c) as [cid|]; [|done].
    injection H0 as <- <-. simpl.
    set (l := fresh (dom (heap (lb σ)))).
    assert (heap (lb σ) !! l = None) as Hfresh.
    { apply not_elem_of_dom, is_fresh. }
    split; simpl; try done.
    + intros p [Hp _]%elem_of_difference. by apply Hpend.
    + intros l' i. rewrite lookup_insert. case_decide as Hl.
      * intros [= <-]. simpl.
        split; [by apply Hpend|split; [rewrite elem_of_difference, elem_of_singleton; intuition|done]].
      * intros Hl'. destruct (Hobj _ _ Hl') as (? & ? & ?).
        split; [done|split; [rewrite elem_of_difference, elem_of_singleton; intuition|done]].
    + intros l1 l2 i1 i2. rewrite !lookup_insert.
      repeat case_decide; subst.
      * done.
      * intros [= <-] H2 Heq. simpl in Heq.
        destruct (Hobj _ _ H2) as (_ & Hnot & _). by rewrite <-Heq in Hnot.
      * intros H1 [= <-] Heq. simpl in Heq.
        destruct (Hobj _ _ H1) as (_ & Hnot & _). by rewrite Heq in Hnot.
      * apply Hdist.
    + apply NoDup_app. split_and!; [done| |apply NoDup_singleton].
      intros l' Hl' ->%list_elem_of_singleton.
      destruct (Hinst _ Hl') as [i Hi]. congruence.
    + intros l' [Hl'| ->%list_elem_of_singleton]%elem_of_app.
      * rewrite lookup_insert. case_decide; [eauto|by apply Hinst].
      * rewrite lookup_insert_eq. eauto.
  - (* createContainer rejected *)
    destruct IH as [Hports Hnext Hpend Hobj Hdist Hnd Hinst]. simpl in *.
    unfold createContainer in H0. destruct (run_stdout c) as [cid|]; [done|].
    injection H0 as <- <-.
    split; simpl; try done.
    + intros p [Hp _]%elem_of_difference. by apply Hpend.
    + intros l i Hl. destruct (Hobj _ _ Hl) as (? & ? & ?).
      split; [done|split; [rewrite elem_of_difference, elem_of_singleton; intuition|done]].
  - apply evolves_update, later_set_status.
  - apply preserves_checkInstanceHealth.
  - apply preserves_removeInstance.
  - apply evolves_handleRequest.
  - apply evolves_deliver.
Qed.

Lemma evolves_deliver_all instance startTime evs res s :
  evolves s (deliver_all instance startTime evs (res, s)).2.
Proof.
  unfold deliver_all. revert res s.
  induction evs as [|ev evs IH]; intros res s; cbn [foldl]; [done|].
  destruct (deliver instance startTime ev (res, s)) as [res1 s1] eqn:Hd.
  etrans; [|apply (IH res1 s1)].
  replace s1 with (deliver instance startTime ev (res, s)).2 by (by rewrite Hd).
  apply evolves_deliver.
Qed.

Lemma reachable_after_first_spawn :
  reachable default_config [5001] after_first_spawn.
Proof.
  change [5001] with (([] ++ issued (Some 5001)) ++ issued None).
  eapply reachable_step.
  - eapply (reachable_step _ _ _ _ after_getNextPort); [apply reachable_initial|].
    apply (step_getNextPort default_config (mkSys initial ∅)).
  - apply (step_createContainer_ok default_config after_getNextPort
             first_container 5001 1%positive).
    + apply elem_of_union. left. by apply elem_of_singleton.
    + reflexivity.
Qed.

(** C7.  In every state the controller can reach, [activeRequests] of
    every worker object is at least 0, and it stays so under any further
    sequence of callbacks of forwarded requests, repeated ones included:
    each decrement is [Math.max(0, activeRequests - 1)]. *)
Theorem activeRequests_nonneg (cfg : AppConfig) (ports : list Z) (σ : Sys)
  (l : loc) (i : DockerInstance) :
  reachable cfg ports σ →
  heap (lb σ) !! l = Some i →
  0 ≤ activeRequests i ∧
  0 ≤ activeRequests (decrement i) ∧
  0 ≤ activeRequests (decrement (decrement i)) ∧
  ∀ instance startTime evs res i',
    heap (deliver_all instance startTime evs (res, lb σ)).2 !! l = Some i' →
    0 ≤ activeRequests i'.
Proof.
  intros Hreach Hl. apply reachable_invariant in Hreach.
  destruct (inv_objects _ _ Hreach l i Hl) as (_ & _ & Hi).
  split_and!; [done|simpl; lia..|].
  intros instance startTime evs res i' Hl'.
  destruct (evolves_lookup _ _ _ _
              (evolves_deliver_all instance startTime evs res (lb σ)) Hl')
    as (i0 & Hi0 & Hlater).
  rewrite Hl in Hi0. injection Hi0 as <-. by apply (later_activeRequests _ _ Hlater).
Qed.

Lemma activeRequests_nonneg_witness :
  0 ≤ 0 ∧
  0 ≤ activeRequests (decrement (mkInstance "3f2a9c1e-0000-4000-8000-000000000000"
        "0123456789ab" 5001 "my-app-lb-3f2a9c1e" 1000 false 0 0 1000 0 starting)) ∧
  0 ≤ activeRequests (decrement (decrement (mkInstance "3f2a9c1e-0000-4000-8000-000000000000"
        "0123456789ab" 5001 "my-app-lb-3f2a9c1e" 1000 false 0 0 1000 0 starting))) ∧
  ∀ instance startTime evs res i',
    heap (deliver_all instance startTime evs (res, lb after_first_spawn)).2 !! 1%positive = Some i' →
    0 ≤ activeRequests i'.
Proof.
  apply (activeRequests_nonneg default_config [5001] after_first_spawn 1%positive
           (mkInstance "3f2a9c1e-0000-4000-8000-000000000000"
              "0123456789ab" 5001 "my-app-lb-3f2a9c1e" 1000 false 0 0 1000 0 starting)).
  - apply reachable_after_first_spawn.
  - vm_compute. reflexivity.
Defined.

(** C8.  The ports [getNextPort] has issued since the construction of the
    controller are 5001, 5002, ... in this order: the k-th one is
    [5001 + k], each is strictly greater than every earlier one, none is
    issued twice, and the next one is greater than all of them.  No two
    workers at different positions of the pool have the same port. *)
Theorem ports_strictly_increasing (cfg : AppConfig) (ports : list Z) (σ : Sys) :
  reachable cfg ports σ →
  (∀ k p, ports !! k = Some p → p = 5001 + Z.of_nat k) ∧
  (∀ j k p q, (j < k)%nat → ports !! j = Some p → ports !! k = Some q → p < q) ∧
  NoDup ports ∧
  (∀ p, p ∈ ports → p < (getNextPort (lb σ)).1) ∧
  (∀ j k l1 l2 i1 i2,
     j ≠ k →
     instances (lb σ) !! j = Some l1 → instances (lb σ) !! k = Some l2 →
     heap (lb σ) !! l1 = Some i1 → heap (lb σ) !! l2 = Some i2 →
     port i1 ≠ port i2).
Proof.
  intros Hreach. apply reachable_invariant in Hreach.
  destruct Hreach as [Hports Hnext Hpend Hobj Hdist Hnd Hinst].
  assert (∀ k p, ports !! k = Some p → p = 5001 + Z.of_nat k ∧ (k < length ports)%nat)
    as Hkth.
  { intros k p Hk. rewrite Hports in Hk. apply lookup_seqZ in Hk. lia. }
  split_and!.
  - intros k p Hk. by apply Hkth.
  - intros j k p q Hjk Hj Hk. apply Hkth in Hj, Hk. lia.
  - rewrite Hports. apply NoDup_seqZ.
  - intros p [k Hk]%list_elem_of_lookup_1. apply Hkth in Hk. simpl. lia.
  - intros j k l1 l2 i1 i2 Hjk Hj Hk H1 H2 Heq.
    apply Hjk. apply (NoDup_lookup _ _ _ l1 Hnd Hj).
    by rewrite (Hdist _ _ _ _ H1 H2 Heq).
Qed.

Lemma ports_strictly_increasing_witness :
  (∀ k p, [5001] !! k = Some p → p = 5001 + Z.of_nat k) ∧
  (∀ j k p q, (j < k)%nat → [5001] !! j = Some p → [5001] !! k = Some q → p < q) ∧
  NoDup [5001] ∧
  (∀ p, p ∈ [5001] → p < (getNextPort (lb after_first_spawn)).1) ∧
  (∀ j k l1 l2 i1 i2,
     j ≠ k →
     instances (lb after_first_spawn) !! j = Some l1 →
     instances (lb after_first_spawn) !! k = Some l2 →
     heap (lb after_first_spawn) !! l1 = Some i1 →
     heap (lb after_first_spawn) !! l2 = Some i2 →
     port i1 ≠ port i2).
Proof.
  apply (ports_strictly_increasing default_config [5001] after_first_spawn).
  apply reachable_after_first_spawn.
Defined.

(** ** Removal *)

Section remove_first.
Context `{EqDecision A}.
Implicit Types (x y : A) (l : list A).

Lemma remove_first_cons x y l :
  remove_first x (y :: l) =
  if decide (y = x) then l else y :: remove_first x l.
Proof.
  unfold remove_first. simpl. case_decide; [done|].
  by destruct (indexOf x l).
Qed.

Lemma indexOf_None x l : indexOf x l = None ↔ x ∉ l.
Proof.
  induction l as [|y l IH]; simpl.
  - split; [intros _; apply not_elem_of_nil|done].
  - rewrite not_elem_of_cons. case_decide as Hy.
    + subst. split; [done|]. by intros [? _].
    + rewrite fmap_None, IH. split; [done|by intros [_ ?]].
Qed.

Lemma indexOf_Some x l k : indexOf x l = Some k → l !! k = Some x.
Proof.
  revert k. induction l as [|y l IH]; intros k; simpl; [done|].
  case_decide as Hy.
  - by intros [= <-]; subst.
  - destruct (indexOf x l) as [k'|]; [|done]. intros [= <-]. by apply IH.
Qed.

Lemma remove_first_absent x l : x ∉ l → remove_first x l = l.
Proof. intros Hx. unfold remove_first. by apply indexOf_None in Hx as ->. Qed.

Lemma elem_of_remove_first_ne x y l :
  y ≠ x → y ∈ remove_first x l ↔ y ∈ l.
Proof.
  intros Hne. induction l as [|z l IH]; [done|].
  rewrite remove_first_cons. case_decide; subst.
  - rewrite elem_of_cons. split; [by right|by intros [?|?]].
  - rewrite !elem_of_cons, IH. done.
Qed.

Lemma remove_first_sublist x l : remove_first x l `sublist_of` l.
Proof.
  unfold remove_first. destruct (indexOf x l); [apply sublist_delete|done].
Qed.

Lemma not_elem_of_remove_first x l : NoDup l → x ∉ remove_first x l.
Proof.
  induction 1 as [|z l Hz Hnd IH]; [apply not_elem_of_nil|].
  rewrite remove_first_cons. case_decide; subst; [done|].
  rewrite not_elem_of_cons. done.
Qed.

Lemma length_remove_first x l :
  x ∈ l → S (length (remove_first x l)) = length l.
Proof.
  induction l as [|z l IH]; [by intros ?%elem_of_nil|].
  rewrite remove_first_cons. case_decide; subst; [done|].
  intros [?|Hx]%elem_of_cons; [done|]. simpl. by rewrite IH.
Qed.
End remove_first.

Lemma removeContainer_spec (o : RemoveOutcome) (w : loc) (s : LB) :
  (removeContainer o w s).1 = Ok tt ∧
  instances (removeContainer o w s).2 = instances s ∧
  nextPort (removeContainer o w s).2 = nextPort s ∧
  heap (removeContainer o w s).2 =
    if stop_ok o
    then alter (set_status (if rm_ok o then stopped else stopping)) w (heap s)
    else heap s.
Proof.
  destruct o as [[] [] []]; (split_and!; [done..|]); simpl; try done.
  all: apply map_eq; intros l; rewrite !lookup_alter;
    repeat case_decide; subst; try done.
  all: by destruct (heap s !! l).
Qed.

Lemma removeInstance_unfold (o : RemoveOutcome) (w : loc) (s : LB) :
  removeInstance o w s =
  removeContainer o w (set_instances (remove_first w (instances s)) s).
Proof.
  unfold removeInstance, remove_first, mbind, M_bind, bind, modify_state.
  destruct (indexOf w (instances s)); [done|]. by destruct s.
Qed.

Lemma removeInstance_spec (o : RemoveOutcome) (w : loc) (s : LB) :
  (removeInstance o w s).1 = Ok tt ∧
  instances (removeInstance o w s).2 = remove_first w (instances s) ∧
  nextPort (removeInstance o w s).2 = nextPort s ∧
  heap (removeInstance o w s).2 =
    if stop_ok o
    then alter (set_status (if rm_ok o then stopped else stopping)) w (heap s)
    else heap s.
Proof.
  rewrite removeInstance_unfold.
  destruct (removeContainer_spec o w
              (set_instances (remove_first w (instances s)) s))
    as (-> & -> & -> & ->). done.
Qed.

Lemma subprocess_removeInstance_spec (w : loc) (s : Subprocess.LB) :
  Subprocess.removeInstance w s =
  (Ok tt, Subprocess.mkLB (Subprocess.heap s)
            (remove_first w (Subprocess.instances s)) (Subprocess.nextPort s)).
Proof.
  unfold Subprocess.removeInstance, remove_first, modify_state.
  destruct (indexOf w (Subprocess.instances s)); [done|]. by destruct s.
Qed.

(** C10.  On a pool without repeated references, [removeInstance] raises
    no error; on a worker that is not in the array it leaves the array as
    it is; after it the worker is not in the array, so that a second call
    on the same worker yields the same array; the other workers stay in
    the array, in their order, and their records are untouched.  The same
    holds in the subprocess variant, where the second call changes
    nothing at all. *)
Theorem removeInstance_idempotent (o o' : RemoveOutcome) (w : loc) (s : LB)
  (s2 : Subprocess.LB) :
  NoDup (instances s) →
  NoDup (Subprocess.instances s2) →
  (* the container variant *)
  ((removeInstance o w s).1 = Ok tt ∧
   (w ∉ instances s → instances (removeInstance o w s).2 = instances s) ∧
   (w ∉ instances (removeInstance o w s).2) ∧
   instances (removeInstance o' w (removeInstance o w s).2).2
     = instances (removeInstance o w s).2 ∧
   (∀ l, l ≠ w → (l ∈ instances (removeInstance o w s).2 ↔ l ∈ instances s)) ∧
   instances (removeInstance o w s).2 `sublist_of` instances s ∧
   (∀ l, l ≠ w → heap (removeInstance o w s).2 !! l = heap s !! l)) ∧
  (* the subprocess variant *)
  ((Subprocess.removeInstance w s2).1 = Ok tt ∧
   (w ∉ Subprocess.instances s2 → (Subprocess.removeInstance w s2).2 = s2) ∧
   (w ∉ Subprocess.instances (Subprocess.removeInstance w s2).2) ∧
   (Subprocess.removeInstance w (Subprocess.removeInstance w s2).2).2
     = (Subprocess.removeInstance w s2).2 ∧
   (∀ l, l ≠ w → (l ∈ Subprocess.instances (Subprocess.removeInstance w s2).2
                  ↔ l ∈ Subprocess.instances s2)) ∧
   Subprocess.heap (Subprocess.removeInstance w s2).2 = Subprocess.heap s2).
Proof.
  intros Hnd Hnd2. split.
  - destruct (removeInstance_spec o w s) as (Hok & Hinst & _ & Hheap).
    destruct (removeInstance_spec o' w (removeInstance o w s).2)
      as (_ & Hinst' & _ & _).
    assert (w ∉ remove_first w (instances s)) as Hgone
      by by apply not_elem_of_remove_first.
    rewrite Hinst', Hinst. split_and!; try done.
    + intros Hw. by apply remove_first_absent.
    + by apply remove_first_absent.
    + intros l Hl. by apply elem_of_remove_first_ne.
    + apply remove_first_sublist.
    + intros l Hl. rewrite Hheap. destruct (stop_ok o); [|done].
      by rewrite lookup_alter_ne.
  - rewrite !subprocess_removeInstance_spec. simpl.
    assert (w ∉ remove_first w (Subprocess.instances s2)) as Hgone
      by by apply not_elem_of_remove_first.
    split_and!; try done.
    + intros Hw. rewrite remove_first_absent by done. by destruct s2.
    + by rewrite (remove_first_absent w (remove_first _ _)).
    + intros l Hl. by apply elem_of_remove_first_ne.
Qed.

Lemma removeInstance_idempotent_witness :
  ((removeInstance all_ok 1%positive two_workers).1 = Ok tt ∧
   (1%positive ∉ instances two_workers →
    instances (removeInstance all_ok 1%positive two_workers).2 = instances two_workers) ∧
   (1%positive ∉ instances (removeInstance all_ok 1%positive two_workers).2) ∧
   instances (removeInstance all_ok 1%positive
                (removeInstance all_ok 1%positive two_workers).2).2
     = instances (removeInstance all_ok 1%positive two_workers).2 ∧
   (∀ l, l ≠ 1%positive →
         (l ∈ instances (removeInstance all_ok 1%positive two_workers).2
          ↔ l ∈ instances two_workers)) ∧
   instances (removeInstance all_ok 1%positive two_workers).2
     `sublist_of` instances two_workers ∧
   (∀ l, l ≠ 1%positive →
         heap (removeInstance all_ok 1%positive two_workers).2 !! l
         = heap two_workers !! l)) ∧
  ((Subprocess.removeInstance 1%positive one_process).1 = Ok tt ∧
   (1%positive ∉ Subprocess.instances one_process →
    (Subprocess.removeInstance 1%positive one_process).2 = one_process) ∧
   (1%positive ∉ Subprocess.instances
                   (Subprocess.removeInstance 1%positive one_process).2) ∧
   (Subprocess.removeInstance 1%positive
      (Subprocess.removeInstance 1%positive one_process).2).2
     = (Subprocess.removeInstance 1%positive one_process).2 ∧
   (∀ l, l ≠ 1%positive →
         (l ∈ Subprocess.instances
                (Subprocess.removeInstance 1%positive one_process).2
          ↔ l ∈ Subprocess.instances one_process)) ∧
   Subprocess.heap (Subprocess.removeInstance 1%positive one_process).2
     = Subprocess.heap one_process).
Proof.
  apply (removeInstance_idempotent all_ok all_ok 1%positive two_workers
           one_process).
  - simpl. apply NoDup_cons. split; [|apply NoDup_singleton].
    intros Hin%list_elem_of_singleton. discriminate Hin.
  - simpl. apply NoDup_singleton.
Defined.

(** ** The autoscaler *)

Section sort_by.
Context {A : Type} (key : A → Z).

Lemma head_insert_sorted (x : A) (l : list A) :
  head (insert_sorted key x l) =
  match head l with
  | None => Some x
  | Some h => if decide (key x ≤ key h) then Some x else Some h
  end.
Proof. destruct l as [|y t]; simpl; [done|]. by case_decide. Qed.

(** The head of the stable sort is the first element of minimal key. *)
Lemma head_sort_by_first_min (l : list A) (r : A) :
  head (sort_by key l) = Some r →
  ∃ pre post, l = pre ++ r :: post ∧
              (∀ y, y ∈ pre → key r < key y) ∧
              (∀ y, y ∈ post → key r ≤ key y).
Proof.
  revert r. induction l as [|x l IH]; intros r; [done|].
  unfold sort_by. simpl. fold (sort_by key l).
  rewrite head_insert_sorted.
  destruct (head (sort_by key l)) as [h|] eqn:Hh.
  - destruct (IH h eq_refl) as (pre & post & -> & Hpre & Hpost).
    case_decide as Hx; intros [= <-].
    + exists [], (pre ++ h :: post). split_and!; [done|by intros ? ?%elem_of_nil|].
      intros y [Hy|[->|Hy]%elem_of_cons]%elem_of_app.
      * specialize (Hpre _ Hy). lia.
      * done.
      * specialize (Hpost _ Hy). lia.
    + exists (x :: pre), post. split_and!; [done| |done].
      intros y [->|Hy]%elem_of_cons; [lia|by apply Hpre].
  - intros [= <-]. destruct l as [|z l]; [|].
    + exists [], []. split_and!; [done|by intros ? ?%elem_of_nil..].
    + exfalso. unfold sort_by in Hh. simpl in Hh.
      rewrite head_insert_sorted in Hh.
      destruct (head (foldr (insert_sorted key) [] l)); [case_decide|]; done.
Qed.

Lemma head_sort_by_is_Some (l : list A) :
  l ≠ [] → is_Some (head (sort_by key l)).
Proof.
  destruct l as [|x l]; [done|]. intros _. unfold sort_by. simpl.
  rewrite head_insert_sorted.
  destruct (head (foldr (insert_sorted key) [] l)); [case_decide|]; eauto.
Qed.
End sort_by.

Lemma length_filter_omap_remove_first `{EqDecision A} {B}
  (f : A → option B) (P : B → Prop) `{!∀ b, Decision (P b)}
  (x : A) (y : B) (l : list A) :
  x ∈ l → f x = Some y → P y →
  S (length (filter P (omap f (remove_first x l)))) =
  length (filter P (omap f l)).
Proof.
  intros Hin Hfx Hy. induction l as [|z l IH]; [by apply elem_of_nil in Hin|].
  rewrite remove_first_cons. case_decide as Hz.
  - subst. simpl. rewrite Hfx. by rewrite filter_cons_True.
  - apply elem_of_cons in Hin as [->|Hin]; [done|]. simpl.
    destruct (f z) as [b|]; [|by apply IH].
    specialize (IH Hin). unfold omap in IH.
    rewrite !filter_cons. case_decide; simpl; by rewrite IH.
Qed.

Lemma objects_removeInstance (o : RemoveOutcome) (w : loc) (s : LB) :
  NoDup (instances s) →
  objects (removeInstance o w s).2 =
  omap (λ l, pair l <$> heap s !! l) (remove_first w (instances s)).
Proof.
  intros Hnd. destruct (removeInstance_spec o w s) as (_ & Hinst & _ & Hheap).
  unfold objects. rewrite Hinst, Hheap.
  apply list_omap_ext, Forall2_same_length_lookup_2; [done|].
  intros k l l' Hl Hl'. rewrite Hl in Hl'. injection Hl' as <-.
  destruct (stop_ok o); [|done].
  rewrite lookup_alter_ne; [done|]. intros <-.
  apply (not_elem_of_remove_first w _ Hnd). by eapply list_elem_of_lookup_2.
Qed.

Lemma autoScale_by_action cfg now c rounds o s :
  autoScale cfg now c rounds o s =
  match autoScale_action cfg now s with
  | ScaleUp =>
      try_catch (spawnInstance cfg c rounds o;; ret tt) (λ _, ret tt) s
  | ScaleDown p => removeInstance o p.1 s
  | NoAction => (Ok tt, s)
  end.
Proof.
  unfold autoScale, autoScale_action, with_state.
  destruct (shouldScaleUp cfg s); [done|].
  destruct (shouldScaleDown cfg now s); [|done].
  by destruct (candidate (getHealthyInstances s)).
Qed.

Lemma shouldScaleDown_true cfg now s :
  shouldScaleDown cfg now s = true →
  minInstances cfg < Z.of_nat (length (getHealthyInstances s)) ∧
  Double.lt (avgLoad (getHealthyInstances s)) (scaleDownThreshold cfg) = true ∧
  Exists (λ p, idle cfg now p.2) (getHealthyInstances s).
Proof.
  unfold shouldScaleDown. case_decide as Hlen; [done|]. cbv zeta.
  intros [Hlt Hidle%bool_decide_eq_true]%andb_true_iff.
  split_and!; [lia|done..].
Qed.




(** ** The health check *)

Lemma checkInstanceHealth_caught (p : ProbeOutcome) (l : loc) (s : LB) :
  try_catch (checkInstanceHealth p l) (λ _, ret tt) s =
  (Ok tt, update l (probe_effect p) s).
Proof.
  destruct p as [code st n1 n2| |]; [|reflexivity..].
  unfold checkInstanceHealth, probe_effect, try_catch.
  destruct (decide (code = 200)); reflexivity.
Qed.

Lemma for_each_fmap {S A B} (f : A → B) (l : list A) (body : B → M S unit) :
  for_each (f <$> l) body = for_each l (λ x, body (f x)).
Proof.
  induction l as [|x l IH]; [done|]. rewrite fmap_cons. simpl. by rewrite IH.
Qed.

Lemma probe_loop (probes : loc → ProbeOutcome) (ls : list loc) (s : LB) :
  for_each ls (λ instance,
    try_catch (checkInstanceHealth (probes instance) instance) (λ _, ret tt)) s
  = (Ok tt, foldl (λ s l, update l (probe_effect (probes l)) s) s ls).
Proof.
  revert s. induction ls as [|l ls IH]; intros s; simpl; [done|].
  unfold bind. rewrite checkInstanceHealth_caught. apply IH.
Qed.

Lemma instances_probe_fold (probes : loc → ProbeOutcome) (ls : list loc) (s : LB) :
  instances (foldl (λ s l, update l (probe_effect (probes l)) s) s ls)
  = instances s.
Proof. revert s. induction ls as [|l ls IH]; intros s; simpl; [done|]. by rewrite IH. Qed.

#[export] Instance same_health_refl : Reflexive same_health.
Proof. by intros i. Qed.
#[export] Instance same_health_trans : Transitive same_health.
Proof. intros i j k [] []. split; congruence. Qed.

Lemma removeInstance_same_health (o : RemoveOutcome) (w : loc) (s : LB) (l : loc) :
  option_Forall2 same_health (heap s !! l) (heap (removeInstance o w s).2 !! l).
Proof.
  destruct (removeInstance_spec o w s) as (_ & _ & _ & ->).
  destruct (stop_ok o); [|done]. rewrite lookup_alter.
  case_decide; [subst|done]. by destruct (heap s !! l); constructor.
Qed.

(** The loop that evicts the workers of [ls]. *)
Lemma eviction_loop (outcomes : loc → RemoveOutcome) (ls : list loc) (s : LB) :
  NoDup (instances s) →
  let r := for_each ls (λ l, removeInstance (outcomes l) l) s in
  r.1 = Ok tt ∧
  instances r.2 `sublist_of` instances s ∧
  (∀ l, l ∈ ls → l ∉ instances r.2) ∧
  (∀ l, l ∉ ls → l ∈ instances s → l ∈ instances r.2) ∧
  (∀ l, option_Forall2 same_health (heap s !! l) (heap r.2 !! l)) ∧
  (∀ l, l ∉ ls → heap r.2 !! l = heap s !! l) ∧
  (∀ l i, l ∈ ls → stop_ok (outcomes l) = true → rm_ok (outcomes l) = true →
          heap r.2 !! l = Some i → status i = stopped).
Proof.
  revert s. induction ls as [|w ls IH]; intros s Hnd; simpl.
  { split_and!; try done.
    - by intros ? ?%elem_of_nil.
    - by intros ? ? ?%elem_of_nil. }
  unfold bind.
  destruct (removeInstance_spec (outcomes w) w s) as (Hok & Hinst & _ & Hheap).
  pose proof (removeInstance_same_health (outcomes w) w s) as Hsame.
  destruct (removeInstance (outcomes w) w s) as [res s1]. simpl in *. subst res.
  assert (NoDup (instances s1)) as Hnd1.
  { rewrite Hinst. eapply sublist_NoDup; [done|apply remove_first_sublist]. }
  destruct (IH s1 Hnd1) as (IHok & IHsub & IHgone & IHkept & IHsame & IHheap & IHstatus).
  split_and!.
  - done.
  - etrans; [done|]. rewrite Hinst. apply remove_first_sublist.
  - intros l [->|Hl]%elem_of_cons; [|by apply IHgone].
    intros Hin. eapply elem_of_sublist in Hin; [|done].
    rewrite Hinst in Hin. by apply not_elem_of_remove_first in Hin.
  - intros l [Hne Hl]%not_elem_of_cons Hin. apply IHkept; [done|].
    rewrite Hinst. by apply elem_of_remove_first_ne.
  - intros l. etrans; [apply Hsame|apply IHsame].
  - intros l [Hne Hl]%not_elem_of_cons. rewrite IHheap by done. rewrite Hheap.
    destruct (stop_ok (outcomes w)); [|done]. by rewrite lookup_alter_ne.
  - intros l i Hl Hstop Hrm Hi. destruct (decide (l ∈ ls)) as [Hin|Hnotin].
    { by eapply IHstatus. }
    apply elem_of_cons in Hl as [->|Hl]; [|done].
    rewrite IHheap in Hi by done. rewrite Hheap, Hstop, Hrm in Hi.
    rewrite lookup_alter_eq in Hi.
    destruct (heap s !! w); simplify_eq/=. done.
Qed.

Lemma healthCheckAll_unfold probes now outcomes s :
  healthCheckAll probes now outcomes s =
  for_each
    (fst <$> filter (λ p, persistentlyUnhealthy now p.2)
               (objects (after_probes probes s)))
    (λ l, removeInstance (outcomes l) l) (after_probes probes s).
Proof.
  unfold healthCheckAll, mbind, M_bind, bind, with_state.
  rewrite probe_loop. by rewrite for_each_fmap.
Qed.

Lemma subprocess_probe_caught p l (s : Subprocess.LB) :
  (try_catch (Subprocess.checkInstanceHealth p l) (λ _, ret tt) s).1 = Ok tt ∧
  Subprocess.instances
    (try_catch (Subprocess.checkInstanceHealth p l) (λ _, ret tt) s).2
  = Subprocess.instances s ∧
  ∀ l', l' ≠ l →
    Subprocess.heap
      (try_catch (Subprocess.checkInstanceHealth p l) (λ _, ret tt) s).2 !! l'
    = Subprocess.heap s !! l'.
Proof.
  destruct p as [code st n1 n2| |];
    unfold Subprocess.checkInstanceHealth, try_catch;
    [destruct (decide (code = 200))|..]; simpl;
    (split_and!; [done..|]); intros l' Hl'; by rewrite lookup_alter_ne.
Qed.

Lemma subprocess_probe_loop probes (ls : list loc) (s : Subprocess.LB) :
  let r := for_each ls (λ instance,
             try_catch (Subprocess.checkInstanceHealth (probes instance) instance)
                       (λ _, ret tt)) s in
  r.1 = Ok tt ∧ Subprocess.instances r.2 = Subprocess.instances s.
Proof.
  revert s. induction ls as [|l ls IH]; intros s; simpl; [done|]. unfold bind.
  destruct (subprocess_probe_caught (probes l) l s) as (Hok & Hinst & _).
  destruct (try_catch _ _ s) as [res s1]. simpl in *. subst res.
  rewrite <-Hinst. apply IH.
Qed.

Lemma subprocess_healthCheckAll_instances probes (s : Subprocess.LB) :
  (Subprocess.healthCheckAll probes s).1 = Ok tt ∧
  Subprocess.instances (Subprocess.healthCheckAll probes s).2
  = Subprocess.instances s.
Proof. apply subprocess_probe_loop. Qed.

(** C6, for the container variant.  On a pool without repeated
    references a health-check tick of [DockerLoadBalancer] ends without an
    error and leaves in the pool no worker with [isHealthy = false] and
    [now - lastHealth > 60000]: each such worker is taken out of the array
    and its container is stopped and removed ([status] is ["stopped"] when
    both Docker commands succeed); the other workers stay, in their order.
    The tick of the subprocess variant probes only: its array is
    unchanged. *)
Theorem healthCheckAll_evicts
  (probes : loc → ProbeOutcome) (now : Z) (outcomes : loc → RemoveOutcome)
  (s : LB) (probes2 : loc → Subprocess.ProbeOutcome) (s2 : Subprocess.LB) :
  NoDup (instances s) →
  let r := healthCheckAll probes now outcomes s in
  r.1 = Ok tt ∧
  instances r.2 `sublist_of` instances s ∧
  (∀ l i, l ∈ instances r.2 → heap r.2 !! l = Some i →
          ¬ (isHealthy i = false ∧ 60000 < now - lastHealth i)) ∧
  (∀ l i, l ∈ instances s → heap r.2 !! l = Some i →
          isHealthy i = false → 60000 < now - lastHealth i →
          (l ∉ instances r.2) ∧
          (stop_ok (outcomes l) = true → rm_ok (outcomes l) = true →
           status i = stopped)) ∧
  (∀ l i, l ∈ instances s → heap r.2 !! l = Some i →
          ¬ (isHealthy i = false ∧ 60000 < now - lastHealth i) →
          l ∈ instances r.2) ∧
  (Subprocess.healthCheckAll probes2 s2).1 = Ok tt ∧
  Subprocess.instances (Subprocess.healthCheckAll probes2 s2).2
    = Subprocess.instances s2.
Proof.
  intros Hnd r. subst r. rewrite healthCheckAll_unfold.
  set (s1 := after_probes probes s).
  set (ls := fst <$> filter (λ p, persistentlyUnhealthy now p.2) (objects s1)).
  assert (instances s1 = instances s) as Hinst1
    by apply instances_probe_fold.
  assert (NoDup (instances s1)) as Hnd1 by by rewrite Hinst1.
  destruct (eviction_loop outcomes ls s1 Hnd1)
    as (Hok & Hsub & Hgone & Hkept & Hsame & Hheap & Hstatus).
  assert (∀ l i, l ∈ instances s → heap
            (for_each ls (λ l, removeInstance (outcomes l) l) s1).2 !! l = Some i →
            (l ∈ ls ↔ persistentlyUnhealthy now i)) as Hls.
  { intros l i Hl Hi. specialize (Hsame l). rewrite Hi in Hsame.
    inversion Hsame as [i1 ? [Hh1 Hh2] Hi1|]; subst. symmetry in Hi1.
    unfold ls. rewrite list_elem_of_fmap. split.
    - intros ([l' i'] & -> & [Hp Hin]%list_elem_of_filter). simpl in *.
      apply elem_of_objects in Hin as [_ Hin]. rewrite Hi1 in Hin.
      injection Hin as <-. destruct Hp. split; congruence.
    - intros [Hp1 Hp2]. exists (l, i1). split; [done|].
      apply list_elem_of_filter. split.
      + split; simpl; congruence.
      + apply elem_of_objects. by rewrite Hinst1. }
  split_and!.
  - done.
  - by rewrite <-Hinst1.
  - intros l i Hl Hi Hp. apply (Hgone l); [|done].
    apply (Hls l i); [|done..]. rewrite <-Hinst1. by eapply elem_of_sublist.
  - intros l i Hl Hi Hh Ht.
    assert (l ∈ ls) as Hin by by apply (Hls l i).
    split; [by apply Hgone|]. intros. by eapply Hstatus.
  - intros l i Hl Hi Hp. apply Hkept; [|by rewrite Hinst1].
    intros Hin. by apply Hp, (Hls l i).
  - apply subprocess_healthCheckAll_instances.
  - apply subprocess_healthCheckAll_instances.
Qed.

(** C6 fails in the subprocess variant: after a tick whose probe fails,
    the worker that has been unhealthy for more than 60 seconds is still
    in the pool. *)
Lemma subprocess_healthCheckAll_keeps_unhealthy :
  let now := 100000 in
  let s' := (Subprocess.healthCheckAll (λ _, Subprocess.ProbeError)
               stale_process).2 in
  1%positive ∈ Subprocess.instances s' ∧
  ∃ i, Subprocess.heap s' !! 1%positive = Some i ∧
       Subprocess.isHealthy i = false ∧
       60000 < now - Subprocess.lastHealth i.
Proof.
  split; [left|].
  eexists. split; [vm_compute; reflexivity|]. split; [reflexivity|]. simpl. lia.
Qed.

Lemma healthCheckAll_evicts_witness :
  let probes := λ _ : loc, ProbeError in
  let outcomes := λ _ : loc, all_ok in
  let probes2 := λ _ : loc, Subprocess.ProbeError in
  let now := 100000 in
  let r := healthCheckAll probes now outcomes two_workers in
  r.1 = Ok tt ∧
  instances r.2 `sublist_of` instances two_workers ∧
  (∀ l i, l ∈ instances r.2 → heap r.2 !! l = Some i →
          ¬ (isHealthy i = false ∧ 60000 < now - lastHealth i)) ∧
  (∀ l i, l ∈ instances two_workers → heap r.2 !! l = Some i →
          isHealthy i = false → 60000 < now - lastHealth i →
          (l ∉ instances r.2) ∧
          (stop_ok (outcomes l) = true → rm_ok (outcomes l) = true →
           status i = stopped)) ∧
  (∀ l i, l ∈ instances two_workers → heap r.2 !! l = Some i →
          ¬ (isHealthy i = false ∧ 60000 < now - lastHealth i) →
          l ∈ instances r.2) ∧
  (Subprocess.healthCheckAll probes2 stale_process).1 = Ok tt ∧
  Subprocess.instances (Subprocess.healthCheckAll probes2 stale_process).2
    = Subprocess.instances stale_process.
Proof.
  apply (healthCheckAll_evicts (λ _, ProbeError) 100000 (λ _, all_ok)
           two_workers (λ _, Subprocess.ProbeError) stale_process).
  simpl. apply NoDup_cons. split; [|apply NoDup_singleton].
  intros Hin%list_elem_of_singleton. discriminate Hin.
Defined.

Example healthCheckAll_two_workers :
  instances (healthCheckAll (λ _, ProbeError) 100000 (λ _, all_ok) two_workers).2
  = [].
Proof. vm_compute. reflexivity. Qed.

(** ** The bound on the pool *)

Lemma reachable_one_only : reachable one_only [5001] after_first_spawn.
Proof.
  change [5001] with (([] ++ issued (Some 5001)) ++ issued None).
  eapply reachable_step.
  - eapply (reachable_step _ _ _ _ after_getNextPort); [apply reachable_initial|].
    apply (step_getNextPort one_only (mkSys initial ∅)).
  - apply (step_createContainer_ok one_only after_getNextPort
             first_container 5001 1%positive).
    + apply elem_of_union. left. by apply elem_of_singleton.
    + reflexivity.
Qed.

(** C3.  The code at the failing input: [maxInstances = 1], and the pool
    holds one worker that is still starting (the state after the first
    spawn, which the controller reaches).  [shouldScaleUp] counts the
    healthy running workers, of which there are none, and answers [true];
    [autoScale] spawns, and the pool has two workers. *)
Theorem scale_up_beyond_maxInstances :
  let s := lb after_first_spawn in
  let r := autoScale one_only 6000 second_container ready_at_once all_ok s in
  reachable one_only [5001] after_first_spawn ∧
  Z.of_nat (length (instances s)) = maxInstances one_only ∧
  length (getHealthyInstances s) = 0%nat ∧
  shouldScaleUp one_only s = true ∧
  r.1 = Ok tt ∧
  instances r.2 = [1%positive; 2%positive] ∧
  maxInstances one_only < Z.of_nat (length (instances r.2)).
Proof.
  split; [apply reachable_one_only|]. vm_compute. repeat split; reflexivity.
Qed.

(** * Further properties of the code *)

(** ** The data path *)

Lemma pickInstance_elem (s : LB) (p : loc * DockerInstance) :
  pickInstance s = Some p → p ∈ getHealthyInstances s.
Proof.
  unfold pickInstance. case_decide as Hlen; [done|].
  destruct (getHealthyInstances s) as [|x t]; [done|]. simpl. intros [= <-].
  destruct (foldl_min_first (λ p, getInstanceLoad p.2) t x)
    as (pre & post & -> & _). simpl.
  apply elem_of_app. right. left.
Qed.

Lemma pickInstance_None (s : LB) :
  pickInstance s = None ↔ getHealthyInstances s = [].
Proof.
  unfold pickInstance. destruct (getHealthyInstances s) as [|x t]; simpl.
  - done.
  - split; intros H; discriminate H.
Qed.

Lemma handleRequest_picked (req : Request) (now1 now2 : Z) (s : LB)
  (w : loc) (i : DockerInstance) :
  pickInstance s = Some (w, i) →
  let r := handleRequest req now1 now2 s in
  heap r.2 !! w = Some (set_lastRequestTime now1
                          (set_totalRequests (totalRequests i + 1)
                             (set_activeRequests (activeRequests i + 1) i))) ∧
  instances r.2 = instances s.
Proof.
  intros Hpick. pose proof (pickInstance_elem _ _ Hpick) as Hin.
  apply elem_of_getHealthyInstances in Hin as (_ & Hw & _).
  unfold handleRequest. rewrite Hpick. simpl. split; [|done].
  rewrite !lookup_alter_eq, Hw. done.
Qed.

(** [handleRequest], when [pickInstance] chose the worker [w]: the
    upstream request goes to [localhost] on the port of [w] with the
    path and method of the client, under the 30 s timeout;
    [activeRequests] and [totalRequests] of [w] grow by one,
    [lastRequestTime] is the first clock reading; no other worker, and
    neither the array nor the port counter, changes. *)
Theorem handleRequest_dispatch (req : Request) (now1 now2 : Z) (s : LB)
  (w : loc) (i : DockerInstance) :
  pickInstance s = Some (w, i) →
  let r := handleRequest req now1 now2 s in
  let i' := set_lastRequestTime now1
              (set_totalRequests (totalRequests i + 1)
                 (set_activeRequests (activeRequests i + 1) i)) in
  heap s !! w = Some i ∧
  r.1 = Forwarded w now2
          (mkOptions "localhost" (port i) (originalUrl req) (method req) 30000) ∧
  heap r.2 !! w = Some i' ∧
  (∀ l, l ≠ w → heap r.2 !! l = heap s !! l) ∧
  instances r.2 = instances s ∧
  nextPort r.2 = nextPort s.
Proof.
  intros Hpick. pose proof (pickInstance_elem _ _ Hpick) as Hin.
  apply elem_of_getHealthyInstances in Hin as (_ & Hw & _).
  unfold handleRequest. rewrite Hpick. simpl. split_and!; try done.
  - rewrite !lookup_alter_eq, Hw. done.
  - intros l Hl. by rewrite !lookup_alter_ne.
Qed.

Lemma handleRequest_dispatch_witness :
  let req := mkRequest "/api/user" "GET" in
  let i := mkInstance "a" "c1" 5001 "lb-a" 1000 true 1 4 1000 120 running in
  let r := handleRequest req 2000 2001 busy_worker in
  let i' := set_lastRequestTime 2000
              (set_totalRequests (totalRequests i + 1)
                 (set_activeRequests (activeRequests i + 1) i)) in
  heap busy_worker !! 1%positive = Some i ∧
  r.1 = Forwarded 1%positive 2001
          (mkOptions "localhost" (port i) (originalUrl req) (method req) 30000) ∧
  heap r.2 !! 1%positive = Some i' ∧
  (∀ l, l ≠ 1%positive → heap r.2 !! l = heap busy_worker !! l) ∧
  instances r.2 = instances busy_worker ∧
  nextPort r.2 = nextPort busy_worker.
Proof.
  apply (handleRequest_dispatch (mkRequest "/api/user" "GET") 2000 2001
           busy_worker 1%positive
           (mkInstance "a" "c1" 5001 "lb-a" 1000 true 1 4 1000 120 running)).
  vm_compute. reflexivity.
Defined.

Lemma deliver_all_cons instance startTime ev evs st :
  deliver_all instance startTime (ev :: evs) st =
  deliver_all instance startTime evs (deliver instance startTime ev st).
Proof. done. Qed.

Lemma deliver_all_lookup_other instance startTime evs res s l :
  l ≠ instance →
  heap (deliver_all instance startTime evs (res, s)).2 !! l = heap s !! l.
Proof.
  intros Hl. revert res s. induction evs as [|ev evs IH]; intros res s; [done|].
  rewrite deliver_all_cons.
  destruct (deliver instance startTime ev (res, s)) as [res1 s1] eqn:Hd.
  rewrite IH. replace s1 with (deliver instance startTime ev (res, s)).2
    by (by rewrite Hd).
  rewrite deliver_lookup. by rewrite decide_False.
Qed.

(** A forwarded request that ends in the [end] callback of the response,
    or in one error callback, gives back what the dispatch took: after
    it, [activeRequests] of the chosen worker is what it was before
    [handleRequest], [totalRequests] is one more, and on the successful
    path [responseTime] is the time from [startTime] to the end of the
    response. *)
Theorem request_accounting_restored (req : Request) (now1 now2 now : Z)
  (s : LB) (w : loc) (i : DockerInstance) :
  pickInstance s = Some (w, i) →
  0 ≤ activeRequests i →
  let s1 := (handleRequest req now1 now2 s).2 in
  let done := (deliver_all w now2 (success_path now) (mkRes false None, s1)) in
  let failed := (deliver_all w now2 error_path (mkRes false None, s1)) in
  (∃ i', heap done.2 !! w = Some i' ∧
         activeRequests i' = activeRequests i ∧
         totalRequests i' = totalRequests i + 1 ∧
         responseTime i' = now - now2 ∧
         lastRequestTime i' = now1) ∧
  replied done.1 = None ∧
  (∃ i', heap failed.2 !! w = Some i' ∧
         activeRequests i' = activeRequests i ∧
         totalRequests i' = totalRequests i + 1 ∧
         responseTime i' = responseTime i ∧
         lastRequestTime i' = now1) ∧
  replied failed.1 = Some (Reply502 "Bad Gateway" "Backend server error").
Proof.
  intros Hpick Hact.
  destruct (handleRequest_picked req now1 now2 s w i Hpick) as (Hw & _).
  cbv zeta in *. split_and!.
  - unfold success_path. rewrite !deliver_all_cons.
    change (deliver w now2 EvResponse (mkRes false None, ?s))
      with (mkRes true None, s).
    unfold deliver_all. cbn [foldl]. rewrite deliver_lookup, decide_True by done.
    rewrite Hw. eexists. split; [done|]. simpl. split_and!; try done. lia.
  - done.
  - unfold error_path, deliver_all. cbn [foldl].
    rewrite deliver_lookup, decide_True by done.
    rewrite Hw. eexists. split; [done|]. simpl. split_and!; try done. lia.
  - done.
Qed.

Lemma request_accounting_restored_witness :
  let req := mkRequest "/api/user" "GET" in
  let i := mkInstance "a" "c1" 5001 "lb-a" 1000 true 1 4 1000 120 running in
  let w := 1%positive in
  let s1 := (handleRequest req 2000 2001 busy_worker).2 in
  let done := (deliver_all w 2001 (success_path 2300) (mkRes false None, s1)) in
  let failed := (deliver_all w 2001 error_path (mkRes false None, s1)) in
  (∃ i', heap done.2 !! w = Some i' ∧
         activeRequests i' = activeRequests i ∧
         totalRequests i' = totalRequests i + 1 ∧
         responseTime i' = 2300 - 2001 ∧
         lastRequestTime i' = 2000) ∧
  replied done.1 = None ∧
  (∃ i', heap failed.2 !! w = Some i' ∧
         activeRequests i' = activeRequests i ∧
         totalRequests i' = totalRequests i + 1 ∧
         responseTime i' = responseTime i ∧
         lastRequestTime i' = 2000) ∧
  replied failed.1 = Some (Reply502 "Bad Gateway" "Backend server error").
Proof.
  apply (request_accounting_restored (mkRequest "/api/user" "GET") 2000 2001
           2300 busy_worker 1%positive
           (mkInstance "a" "c1" 5001 "lb-a" 1000 true 1 4 1000 120 running)).
  - vm_compute. reflexivity.
  - simpl. lia.
Defined.

Lemma deliver_after_headers instance startTime ev res s :
  headersSent res = true →
  (deliver instance startTime ev (res, s)).1 = res.
Proof.
  destruct res as [sent r]. simpl. intros ->. by destruct ev.
Qed.

(** The proxy answers a request at most once.  Once the headers of the
    client response are sent (by the upstream response, or by a 502 or
    504 of the proxy) no later callback changes what the client gets; in
    particular the error callback that follows a timeout leaves the 504
    in place, and after a timeout or an error the answer is fixed
    whatever follows. *)
Theorem proxy_replies_once (instance : loc) (startTime : Z)
  (evs : list UpstreamEvent) (res : Res) (s : LB) :
  headersSent res = true →
  (deliver_all instance startTime evs (res, s)).1 = res ∧
  replied (deliver_all instance startTime (EvTimeout :: evs)
             (mkRes false None, s)).1
    = Some (Reply504 "Gateway Timeout" "Backend server timeout") ∧
  replied (deliver_all instance startTime (EvError :: evs)
             (mkRes false None, s)).1
    = Some (Reply502 "Bad Gateway" "Backend server error") ∧
  replied (deliver_all instance startTime (EvResponse :: evs)
             (mkRes false None, s)).1 = None.
Proof.
  intros Hsent.
  assert (∀ evs res s, headersSent res = true →
            (deliver_all instance startTime evs (res, s)).1 = res) as Hkeep.
  { clear. intros evs. induction evs as [|ev evs IH]; intros res s Hsent; [done|].
    rewrite deliver_all_cons.
    pose proof (deliver_after_headers instance startTime ev res s Hsent) as Hres.
    destruct (deliver instance startTime ev (res, s)) as [res1 s1].
    simpl in Hres. subst res1. by apply IH. }
  split_and!.
  - by apply Hkeep.
  - rewrite deliver_all_cons. simpl deliver. by rewrite Hkeep.
  - rewrite deliver_all_cons. simpl deliver. by rewrite Hkeep.
  - rewrite deliver_all_cons. simpl deliver. by rewrite Hkeep.
Qed.

Lemma proxy_replies_once_witness :
  let res := mkRes true (Some (Reply504 "Gateway Timeout" "Backend server timeout")) in
  (deliver_all 1%positive 2001 [EvError; EvEnd 2400] (res, busy_worker)).1 = res ∧
  replied (deliver_all 1%positive 2001 (EvTimeout :: [EvError; EvEnd 2400])
             (mkRes false None, busy_worker)).1
    = Some (Reply504 "Gateway Timeout" "Backend server timeout") ∧
  replied (deliver_all 1%positive 2001 (EvError :: [EvError; EvEnd 2400])
             (mkRes false None, busy_worker)).1
    = Some (Reply502 "Bad Gateway" "Backend server error") ∧
  replied (deliver_all 1%positive 2001 (EvResponse :: [EvError; EvEnd 2400])
             (mkRes false None, busy_worker)).1 = None.
Proof.
  apply (proxy_replies_once 1%positive 2001 [EvError; EvEnd 2400]
           (mkRes true (Some (Reply504 "Gateway Timeout" "Backend server timeout")))
           busy_worker).
  reflexivity.
Defined.

(** ** Probes and containers *)

(** [checkInstanceHealth] resolves exactly on a response with status 200.
    It touches the probed object only, and of it only the health fields:
    a successful probe sets [isHealthy], [lastHealth] and [responseTime],
    whatever the [status] of the worker; a failed one clears [isHealthy]
    and keeps [lastHealth] and [responseTime], so the time since the last
    success keeps running.  The request counters, the [status], the array
    and the port counter are never changed. *)
Theorem checkInstanceHealth_effect (p : ProbeOutcome) (w : loc) (s : LB)
  (i : DockerInstance) :
  heap s !! w = Some i →
  let r := checkInstanceHealth p w s in
  (r.1 = Ok tt ↔ ∃ startTime now1 now2, p = ProbeResponse 200 startTime now1 now2) ∧
  instances r.2 = instances s ∧
  nextPort r.2 = nextPort s ∧
  (∀ l, l ≠ w → heap r.2 !! l = heap s !! l) ∧
  ∃ i', heap r.2 !! w = Some i' ∧
        activeRequests i' = activeRequests i ∧
        totalRequests i' = totalRequests i ∧
        lastRequestTime i' = lastRequestTime i ∧
        status i' = status i ∧ port i' = port i ∧
        (∀ startTime now1 now2, p = ProbeResponse 200 startTime now1 now2 →
           isHealthy i' = true ∧ lastHealth i' = now2 ∧
           responseTime i' = now1 - startTime) ∧
        (r.1 ≠ Ok tt →
           isHealthy i' = false ∧ lastHealth i' = lastHealth i ∧
           responseTime i' = responseTime i).
Proof.
  intros Hw. destruct p as [code st n1 n2| |]; cbv zeta;
    unfold checkInstanceHealth; [destruct (decide (code = 200)) as [->|Hcode]|..];
    simpl; rewrite ?lookup_alter_eq, Hw; simpl.
  - split_and!; try done.
    + split; [eauto|done].
    + intros l Hl. by rewrite lookup_alter_ne.
    + eexists. split; [done|]. simpl. split_and!; try done.
      intros ? ? ? [= <- <- <-]. done.
  - split_and!; try done.
    + split; [done|]. intros (? & ? & ? & [= ? ? ? ?]). done.
    + intros l Hl. by rewrite lookup_alter_ne.
    + eexists. split; [done|]. simpl. split_and!; try done.
      intros ? ? ? [= ? ? ? ?]. done.
  - split_and!; try done.
    + split; [done|]. intros (? & ? & ? & [=]).
    + intros l Hl. by rewrite lookup_alter_ne.
    + eexists. split; [done|]. simpl. split_and!; done.
  - split_and!; try done.
    + split; [done|]. intros (? & ? & ? & [=]).
    + intros l Hl. by rewrite lookup_alter_ne.
    + eexists. split; [done|]. simpl. split_and!; done.
Qed.

Lemma checkInstanceHealth_effect_witness :
  let p := ProbeResponse 500 3000 3010 3010 in
  let i := mkInstance "a" "c1" 5001 "lb-a" 1000 true 1 4 1000 120 running in
  let w := 1%positive in
  let r := checkInstanceHealth p w busy_worker in
  (r.1 = Ok tt ↔ ∃ startTime now1 now2, p = ProbeResponse 200 startTime now1 now2) ∧
  instances r.2 = instances busy_worker ∧
  nextPort r.2 = nextPort busy_worker ∧
  (∀ l, l ≠ w → heap r.2 !! l = heap busy_worker !! l) ∧
  ∃ i', heap r.2 !! w = Some i' ∧
        activeRequests i' = activeRequests i ∧
        totalRequests i' = totalRequests i ∧
        lastRequestTime i' = lastRequestTime i ∧
        status i' = status i ∧ port i' = port i ∧
        (∀ startTime now1 now2, p = ProbeResponse 200 startTime now1 now2 →
           isHealthy i' = true ∧ lastHealth i' = now2 ∧
           responseTime i' = now1 - startTime) ∧
        (r.1 ≠ Ok tt →
           isHealthy i' = false ∧ lastHealth i' = lastHealth i ∧
           responseTime i' = responseTime i).
Proof.
  apply (checkInstanceHealth_effect (ProbeResponse 500 3000 3010 3010)
           1%positive busy_worker
           (mkInstance "a" "c1" 5001 "lb-a" 1000 true 1 4 1000 120 running)).
  vm_compute. reflexivity.
Defined.

(** [removeContainer] never rejects, whatever Docker answers to [stop],
    [rm] and [rm -f].  It changes nothing but the [status] of the
    instance: ["stopped"] when [stop] and [rm] succeed, ["stopping"] when
    [stop] succeeds and [rm] fails, unchanged when [stop] fails, whether
    or not the forced removal then succeeds. *)
Theorem removeContainer_never_rejects (o : RemoveOutcome) (w : loc) (s : LB) :
  let r := removeContainer o w s in
  r.1 = Ok tt ∧
  instances r.2 = instances s ∧
  nextPort r.2 = nextPort s ∧
  (∀ l, l ≠ w → heap r.2 !! l = heap s !! l) ∧
  heap r.2 !! w =
    (λ i, set_status (if stop_ok o
                      then if rm_ok o then stopped else stopping
                      else status i) i) <$> heap s !! w.
Proof.
  destruct (removeContainer_spec o w s) as (Hok & Hinst & Hnext & Hheap).
  cbv zeta. rewrite Hheap. split_and!; try done.
  - intros l Hl. destruct (stop_ok o); [|done]. by rewrite lookup_alter_ne.
  - destruct (stop_ok o).
    + by rewrite lookup_alter_eq.
    + by destruct (heap s !! w) as [[]|].
Qed.

(** [createContainer]: when [docker run] fails it rejects and changes
    nothing.  When it succeeds it returns a new object, different from
    every object there was, that is not healthy, is ["starting"], has no
    requests, listens on the given port, carries the first 12 characters
    of the container id and the name [<prefix>-<first 8 of the uuid>];
    the array and the other objects are unchanged. *)
Theorem createContainer_fresh (cfg : AppConfig) (c : CreateOutcome)
  (port0 : Z) (s : LB) :
  let r := createContainer cfg c port0 s in
  match run_stdout c with
  | None => r = (Throw "Docker command failed", s)
  | Some out =>
      ∃ w, r.1 = Ok w ∧ heap s !! w = None ∧
           heap r.2 !! w =
             Some (mkInstance (uuid c) (String.substring 0 12 out) port0
                     (containerPrefix cfg ++ "-" ++ String.substring 0 8 (uuid c))
                     (created_now1 c) false 0 0 (created_now2 c) 0 starting) ∧
           (∀ l, l ≠ w → heap r.2 !! l = heap s !! l) ∧
           instances r.2 = instances s ∧
           nextPort r.2 = nextPort s
  end.
Proof.
  cbv zeta. unfold createContainer. destruct (run_stdout c) as [out|]; [|done].
  exists (fresh (dom (heap s))). simpl. split_and!; try done.
  - apply not_elem_of_dom, is_fresh.
  - by rewrite lookup_insert_eq.
  - intros l Hl. by rewrite lookup_insert_ne.
Qed.

(** ** Spawning *)

Lemma status_probe_effect p i : status (probe_effect p i) = status i.
Proof. destruct p; simpl; [case_decide|..]; done. Qed.

Lemma remove_first_snoc `{EqDecision A} (x : A) (l : list A) :
  x ∉ l → remove_first x (l ++ [x]) = l.
Proof.
  induction l as [|y l IH]; intros Hx.
  - simpl. rewrite remove_first_cons. by rewrite decide_True.
  - apply not_elem_of_cons in Hx as [Hne Hx]. simpl.
    rewrite remove_first_cons, decide_False by done. by rewrite IH.
Qed.

Lemma waitLoop_spec (rounds : list PollRound) (o : RemoveOutcome) (w : loc)
  (s : LB) :
  let r := waitLoop rounds o w s in
  nextPort r.2 = nextPort s ∧
  (∀ l, l ≠ w → heap r.2 !! l = heap s !! l) ∧
  (r.1 = Ok tt →
     instances r.2 = instances s ∧
     ∃ i, heap r.2 !! w = Some i ∧ isHealthy i = true ∧ status i = running) ∧
  (r.1 ≠ Ok tt → instances r.2 = remove_first w (instances s)).
Proof.
  revert s. induction rounds as [|r rest IH]; intros s; cbv zeta.
  - simpl. unfold mbind, M_bind, bind.
    destruct (removeInstance_spec o w s) as (Hok & Hinst & Hnext & Hheap).
    destruct (removeInstance o w s) as [res s1]. simpl in *. subst res. simpl.
    split_and!; try done.
    intros l Hl. rewrite Hheap. destruct (stop_ok o); [|done].
    by rewrite lookup_alter_ne.
  - simpl. case_decide as Hrun; [|apply IH].
    unfold mbind, M_bind, bind, modify_state, with_state.
    rewrite checkInstanceHealth_caught.
    set (s2 := update w (probe_effect (probe r)) (update w (set_status running) s)).
    assert (∀ l, l ≠ w → heap s2 !! l = heap s !! l) as Hother.
    { intros l Hl. unfold s2. rewrite !lookup_update. by rewrite !decide_False. }
    destruct (instanceHealthy w s2) eqn:Hhealthy.
    + simpl. split_and!; try done.
      intros _. split; [done|]. unfold instanceHealthy in Hhealthy.
      destruct (heap s2 !! w) as [i|] eqn:Hi; [|done].
      exists i. split_and!; [done..|].
      unfold s2 in Hi. rewrite !lookup_update, !decide_True in Hi by done.
      destruct (heap s !! w) as [i0|]; [|done]. simpl in Hi.
      injection Hi as <-. by rewrite status_probe_effect.
    + destruct (IH s2) as (Hnext & Hheap & Hok & Hthrow).
      split_and!; try done.
      intros l Hl. rewrite Hheap by done. by apply Hother.
Qed.

Lemma spawnInstance_spec (cfg : AppConfig) (c : CreateOutcome)
  (rounds : list PollRound) (o : RemoveOutcome) (s : LB) :
  (∀ l, l ∈ instances s → is_Some (heap s !! l)) →
  let r := spawnInstance cfg c rounds o s in
  nextPort r.2 = nextPort s + 1 ∧
  (∀ l, is_Some (heap s !! l) → heap r.2 !! l = heap s !! l) ∧
  (run_stdout c = None → ∃ e, r.1 = Throw e ∧ heap r.2 = heap s) ∧
  match r.1 with
  | Ok w =>
      heap s !! w = None ∧
      instances r.2 = instances s ++ [w] ∧
      ∃ i, heap r.2 !! w = Some i ∧ port i = nextPort s ∧
           isHealthy i = true ∧ status i = running
  | Throw _ => instances r.2 = instances s
  end.
Proof.
  intros Hwf. cbv zeta.
  unfold spawnInstance, mbind, M_bind, bind, try_catch, getNextPort. simpl.
  unfold createContainer. destruct (run_stdout c) as [out|]; [|simpl; eauto 10].
  simpl. set (w := fresh (dom (heap s))).
  assert (heap s !! w = None) as Hfresh by apply not_elem_of_dom, is_fresh.
  assert (w ∉ instances s) as Hnotin.
  { intros Hin. destruct (Hwf _ Hin) as [i Hi]. congruence. }
  unfold push, modify_state, waitForInstanceReady, mbind, M_bind, bind. simpl.
  match goal with |- context [waitLoop rounds o w ?s0] =>
    set (s1 := s0); destruct (waitLoop_spec rounds o w s1)
      as (Hnext & Hheap & Hok & Hthrow) end.
  assert (∀ l, is_Some (heap s !! l) → heap s1 !! l = heap s !! l) as Hs1.
  { intros l [i Hi]. unfold s1, update. simpl.
    assert (l ≠ w) by congruence.
    by rewrite lookup_alter_ne, lookup_insert_ne. }
  assert (∀ l, is_Some (heap s !! l) → l ≠ w) as Hne
    by (intros l [i Hi]; congruence).
  destruct (waitLoop rounds o w s1) as [[[]|e] s2] eqn:Hloop; simpl in *.
  - split; [done|]. split; [|split; [done|]].
    { intros l Hl. rewrite Hheap by auto. auto. }
    destruct (Hok eq_refl) as (Hinst & i & Hi & Hhealthy & Hrunning).
    split; [done|]. split; [done|]. exists i.
    split; [done|]. split; [|done].
    pose proof (preserves_waitLoop rounds o w s1) as Hev.
    rewrite Hloop in Hev. simpl in Hev.
    destruct (evolves_lookup _ _ _ _ Hev Hi) as (i1 & Hi1 & Hlater).
    rewrite (later_port _ _ Hlater).
    unfold s1, update in Hi1. simpl in Hi1.
    rewrite lookup_alter_eq, lookup_insert_eq in Hi1. by injection Hi1 as <-.
  - split; [done|]. split; [|split; [done|]].
    { intros l Hl. rewrite Hheap by auto. auto. }
    rewrite Hthrow by done. simpl. by apply remove_first_snoc.
Qed.

(** [spawnInstance] takes a port in every case.  When it resolves, the
    worker it returns is a new object, appended to the pool, on the port
    that was next, healthy and running.  When it rejects (the container
    could not be created, or did not become ready in time) the pool is
    the one before the call.  The objects that existed are untouched. *)
Theorem spawnInstance_outcome (cfg : AppConfig) (c : CreateOutcome)
  (rounds : list PollRound) (o : RemoveOutcome) (s : LB) :
  (∀ l, l ∈ instances s → is_Some (heap s !! l)) →
  let r := spawnInstance cfg c rounds o s in
  nextPort r.2 = nextPort s + 1 ∧
  (∀ l, is_Some (heap s !! l) → heap r.2 !! l = heap s !! l) ∧
  (run_stdout c = None → ∃ e, r.1 = Throw e ∧ heap r.2 = heap s) ∧
  match r.1 with
  | Ok w =>
      heap s !! w = None ∧
      instances r.2 = instances s ++ [w] ∧
      ∃ i, heap r.2 !! w = Some i ∧ port i = nextPort s ∧
           isHealthy i = true ∧ status i = running
  | Throw _ => instances r.2 = instances s
  end.
Proof. apply spawnInstance_spec. Qed.

Lemma spawnInstance_outcome_witness :
  let s := lb after_first_spawn in
  let r := spawnInstance one_only second_container ready_at_once all_ok s in
  nextPort r.2 = nextPort s + 1 ∧
  (∀ l, is_Some (heap s !! l) → heap r.2 !! l = heap s !! l) ∧
  (run_stdout second_container = None → ∃ e, r.1 = Throw e ∧ heap r.2 = heap s) ∧
  match r.1 with
  | Ok w =>
      heap s !! w = None ∧
      instances r.2 = instances s ++ [w] ∧
      ∃ i, heap r.2 !! w = Some i ∧ port i = nextPort s ∧
           isHealthy i = true ∧ status i = running
  | Throw _ => instances r.2 = instances s
  end.
Proof.
  apply (spawnInstance_outcome one_only second_container ready_at_once all_ok
           (lb after_first_spawn)).
  intros l Hl. apply list_elem_of_singleton in Hl as ->.
  vm_compute. eauto.
Defined.

(** ** Invariants of the controller *)

(** In every state the controller can reach, no worker is in the pool
    twice, every reference of the pool points to a worker object, the
    port of every worker is one that [getNextPort] issued, and
    [nextPort] is 5001 plus the number of ports issued so far. *)
Theorem reachable_pool_wellformed (cfg : AppConfig) (ports : list Z) (σ : Sys) :
  reachable cfg ports σ →
  NoDup (instances (lb σ)) ∧
  nextPort (lb σ) = 5001 + Z.of_nat (length ports) ∧
  (∀ l, l ∈ instances (lb σ) → is_Some (heap (lb σ) !! l)) ∧
  (∀ l i, heap (lb σ) !! l = Some i → port i ∈ ports).
Proof.
  intros [Hports Hnext Hpend Hobj Hdist Hnd Hinst]%reachable_invariant.
  split_and!; try done.
  intros l i Hl. destruct (Hobj _ _ Hl) as (Hrange & _).
  rewrite Hports. apply elem_of_seqZ. lia.
Qed.

Lemma reachable_pool_wellformed_witness :
  NoDup (instances (lb after_first_spawn)) ∧
  nextPort (lb after_first_spawn) = 5001 + Z.of_nat (length [5001]) ∧
  (∀ l, l ∈ instances (lb after_first_spawn) →
        is_Some (heap (lb after_first_spawn) !! l)) ∧
  (∀ l i, heap (lb after_first_spawn) !! l = Some i → port i ∈ [5001]).
Proof.
  apply (reachable_pool_wellformed default_config [5001] after_first_spawn).
  apply reachable_after_first_spawn.
Defined.

(** No segment of the controller deletes a worker object or assigns its
    [id], [containerId], [port] or [containerName]; [totalRequests] of a
    worker never decreases and [nextPort] never decreases. *)
Theorem step_keeps_identity (cfg : AppConfig) (σ σ' : Sys) (label : option Z) :
  step cfg σ label σ' →
  nextPort (lb σ) ≤ nextPort (lb σ') ∧
  ∀ l i, heap (lb σ) !! l = Some i →
    ∃ i', heap (lb σ') !! l = Some i' ∧
          id i' = id i ∧ containerId i' = containerId i ∧
          port i' = port i ∧ containerName i' = containerName i ∧
          totalRequests i ≤ totalRequests i'.
Proof.
  assert (∀ s s', evolves s s' →
            nextPort s ≤ nextPort s' ∧
            ∀ l i, heap s !! l = Some i →
              ∃ i', heap s' !! l = Some i' ∧
                    id i' = id i ∧ containerId i' = containerId i ∧
                    port i' = port i ∧ containerName i' = containerName i ∧
                    totalRequests i ≤ totalRequests i') as Hev.
  { intros s s' (Hnext & _ & Hheap). split; [lia|].
    intros l i Hl. specialize (Hheap l). rewrite Hl in Hheap.
    inversion Hheap as [? i' Hlater|]; subst. destruct Hlater.
    exists i'. by split_and!. }
  intros Hstep. destruct Hstep.
  - simpl. split; [lia|]. intros l i Hl. exists i. split_and!; (done || lia).
  - simpl. unfold createContainer in H0. destruct (run_stdout c); [|done].
    injection H0 as <- <-. simpl. split; [lia|]. intros l i Hl.
    exists i. rewrite lookup_insert_ne.
    + split_and!; (done || lia).
    + intros <-. pose proof (is_fresh (dom (heap (lb σ)))) as Hf.
      apply not_elem_of_dom in Hf. congruence.
  - simpl. unfold createContainer in H0. destruct (run_stdout c); [done|].
    injection H0 as <- <-. split; [lia|]. intros l i Hl.
    exists i. split_and!; (done || lia).
  - apply (Hev (lb σ)), evolves_update, later_set_status.
  - apply (Hev (lb σ)), preserves_checkInstanceHealth.
  - apply (Hev (lb σ)), preserves_removeInstance.
  - apply (Hev (lb σ)), evolves_handleRequest.
  - apply (Hev (lb σ)), evolves_deliver.
Qed.

Lemma step_keeps_identity_witness :
  let σ := after_first_spawn in
  let σ' := mkSys (removeInstance all_ok 1%positive (lb σ)).2 (pendingPorts σ) in
  nextPort (lb σ) ≤ nextPort (lb σ') ∧
  ∀ l i, heap (lb σ) !! l = Some i →
    ∃ i', heap (lb σ') !! l = Some i' ∧
          id i' = id i ∧ containerId i' = containerId i ∧
          port i' = port i ∧ containerName i' = containerName i ∧
          totalRequests i ≤ totalRequests i'.
Proof.
  apply (step_keeps_identity default_config after_first_spawn
           (mkSys (removeInstance all_ok 1%positive (lb after_first_spawn)).2
                  (pendingPorts after_first_spawn)) None).
  apply (step_remove default_config after_first_spawn all_ok 1%positive).
Defined.

(** The step of the witness removes the only worker of the pool: the
    array is empty afterwards, and the object is still there, stopped,
    with the port and the names it was created with. *)
Example removed_worker_keeps_identity :
  let σ := after_first_spawn in
  let s' := (removeInstance all_ok 1%positive (lb σ)).2 in
  instances (lb σ) = [1%positive] ∧ instances s' = [] ∧
  (port <$> heap (lb σ) !! 1%positive) = Some 5001 ∧
  (port <$> heap s' !! 1%positive) = Some 5001 ∧
  (status <$> heap (lb σ) !! 1%positive) = Some starting ∧
  (status <$> heap s' !! 1%positive) = Some stopped.
Proof. vm_compute. repeat split; reflexivity. Qed.

(** ** Shutdown *)

Lemma length_odd_positions {A} (l : list A) :
  length (odd_positions l) = Nat.div2 (length l).
Proof.
  assert (∀ l : list A,
            length (odd_positions l) = Nat.div2 (length l) ∧
            ∀ x, length (odd_positions (x :: l)) = Nat.div2 (length (x :: l)))
    as H; [|apply H].
  clear l. induction l as [|y l [IH1 IH2]]; [done|]. split; [apply IH2|].
  intros x. simpl. by rewrite IH1.
Qed.

Lemma elem_of_odd_positions {A} (x : A) (l : list A) :
  x ∈ odd_positions l → x ∈ l.
Proof.
  assert (∀ l : list A,
            (x ∈ odd_positions l → x ∈ l) ∧
            ∀ y, x ∈ odd_positions (y :: l) → x ∈ y :: l) as H; [|apply H].
  clear l. induction l as [|z l [IH1 IH2]].
  - split; [done|]. intros y. simpl. by intros ?%elem_of_nil.
  - split; [apply IH2|]. intros y. simpl.
    intros [->|Hx]%elem_of_cons; [right; left|].
    right. right. by apply IH1.
Qed.

Lemma remove_first_middle `{EqDecision A} (x : A) (l1 l2 : list A) :
  x ∉ l1 → remove_first x (l1 ++ x :: l2) = l1 ++ l2.
Proof.
  induction l1 as [|y l1 IH]; intros Hx; simpl.
  - rewrite remove_first_cons. by rewrite decide_True.
  - apply not_elem_of_cons in Hx as [Hne Hx].
    rewrite remove_first_cons, decide_False by done. by rewrite IH.
Qed.

Lemma map_from_out_of_range (n k : nat) (callback : loc → M LB unit) (s : LB) :
  (length (instances s) ≤ k)%nat → map_from n k callback s = (Ok tt, s).
Proof.
  revert k. induction n as [|n IH]; intros k Hk; simpl; [done|].
  unfold mbind, M_bind, bind, with_state.
  rewrite (lookup_ge_None_2 _ _ Hk). simpl. apply IH. lia.
Qed.

Lemma shutdown_loop (outcomes : loc → RemoveOutcome) (n : nat) :
  ∀ (kept rest : list loc) (s : LB),
    instances s = kept ++ rest → NoDup (kept ++ rest) →
    (length rest ≤ n)%nat →
    let r := map_from n (length kept)
               (λ instance,
                  try_catch (removeInstance (outcomes instance) instance)
                            (λ _, ret tt)) s in
    r.1 = Ok tt ∧
    instances r.2 = kept ++ odd_positions rest ∧
    ∀ l, l ∈ kept ++ odd_positions rest → heap r.2 !! l = heap s !! l.
Proof.
  induction n as [|n IH]; intros kept rest s Hinst Hnd Hlen; cbv zeta.
  { destruct rest; [|simpl in Hlen; lia]. simpl. by rewrite Hinst. }
  destruct rest as [|a rest].
  { rewrite map_from_out_of_range by (rewrite Hinst, app_nil_r; lia).
    simpl. by rewrite Hinst. }
  cbn [map_from]. unfold mbind, M_bind, bind, with_state.
  rewrite Hinst, list_lookup_middle by done. unfold try_catch.
  destruct (removeInstance_spec (outcomes a) a s) as (Hok & Hinst1 & _ & Hheap1).
  destruct (removeInstance (outcomes a) a s) as [res s1]. simpl in *. subst res.
  apply NoDup_app in Hnd as (Hnd1 & Hdisj & Hnd2).
  apply NoDup_cons in Hnd2 as [Ha Hnd2].
  assert (a ∉ kept) as Hakept.
  { intros Hin. apply (Hdisj _ Hin). left. }
  rewrite Hinst, remove_first_middle in Hinst1 by done.
  assert (∀ l, l ≠ a → heap s1 !! l = heap s !! l) as Hother.
  { intros l Hl. rewrite Hheap1. destruct (stop_ok (outcomes a)); [|done].
    by rewrite lookup_alter_ne. }
  destruct rest as [|b rest].
  - rewrite map_from_out_of_range by (rewrite Hinst1, app_nil_r; lia).
    simpl. rewrite app_nil_r in *. split_and!; [done..|].
    intros l Hl. apply Hother. intros ->. done.
  - replace (S (length kept)) with (length (kept ++ [b]))
      by (rewrite length_app; simpl; lia).
    assert (NoDup ((kept ++ [b]) ++ rest)) as Hnd'.
    { rewrite <-app_assoc. simpl. apply NoDup_app. split_and!; [done| |done].
      intros l Hl Hl'. apply (Hdisj _ Hl). by right. }
    destruct (IH (kept ++ [b]) rest s1) as (IHok & IHinst & IHheap).
    { by rewrite <-app_assoc. }
    { done. }
    { simpl in Hlen. lia. }
    rewrite <-app_assoc in IHinst, IHheap. simpl in IHinst, IHheap.
    split_and!; [done..|].
    intros l Hl. rewrite IHheap by done. apply Hother. intros ->.
    apply elem_of_app in Hl as [Hl|Hl]; [done|].
    apply elem_of_cons in Hl as [->|Hl].
    + apply Ha. left.
    + apply Ha. right.
      by apply elem_of_odd_positions.
Qed.

(** [shutdown] on a pool without repeated references removes the workers
    at the positions 0, 2, 4, ... only: each callback of [map] splices
    its worker out of the array that [map] is walking, so the worker that
    moves into the visited slot is skipped.  The workers at the odd
    positions, half of the pool rounded down, stay in the array and no
    Docker command is issued for them: their records are unchanged. *)
Theorem shutdown_skips_every_other (outcomes : loc → RemoveOutcome) (s : LB) :
  NoDup (instances s) →
  let r := shutdown outcomes s in
  r.1 = Ok tt ∧
  instances r.2 = odd_positions (instances s) ∧
  length (instances r.2) = Nat.div2 (length (instances s)) ∧
  ∀ l, l ∈ instances r.2 → heap r.2 !! l = heap s !! l.
Proof.
  intros Hnd. cbv zeta. unfold shutdown, array_map, with_state.
  destruct (shutdown_loop outcomes (length (instances s)) [] (instances s) s)
    as (Hok & Hinst & Hheap); [done..|].
  simpl in *. rewrite Hinst. split_and!; [done..| |done].
  apply length_odd_positions.
Qed.

Lemma shutdown_skips_every_other_witness :
  let outcomes := λ _ : loc, all_ok in
  let r := shutdown outcomes two_workers in
  r.1 = Ok tt ∧
  instances r.2 = odd_positions (instances two_workers) ∧
  length (instances r.2) = Nat.div2 (length (instances two_workers)) ∧
  ∀ l, l ∈ instances r.2 → heap r.2 !! l = heap two_workers !! l.
Proof.
  apply (shutdown_skips_every_other (λ _, all_ok) two_workers).
  simpl. apply NoDup_cons. split; [|apply NoDup_singleton].
  intros Hin%list_elem_of_singleton. discriminate Hin.
Defined.

Example shutdown_two_workers :
  instances (shutdown (λ _, all_ok) two_workers).2 = [2%positive].
Proof. vm_compute. reflexivity. Qed.

(** ** Scaling decisions *)

(** With [scaleDownThreshold <= scaleUpThreshold], as in every shipped
    configuration, [shouldScaleUp] and [shouldScaleDown] never both hold:
    the order in which [autoScale] asks them then decides nothing. *)
Theorem scale_decisions_exclusive (cfg : AppConfig) (now : Z) (s : LB) :
  Double.le (scaleDownThreshold cfg) (scaleUpThreshold cfg) = true →
  ¬ (shouldScaleUp cfg s = true ∧ shouldScaleDown cfg now s = true).
Proof.
  intros Hthr [Hup Hdown].
  apply shouldScaleDown_true in Hdown as (Hmin & Hlt & _).
  unfold shouldScaleUp in Hup. case_decide; [done|].
  rewrite decide_False in Hup by lia. cbv zeta in Hup.
  pose proof (double_lt_le_trans _ _ _ Hlt Hthr) as Hlt'.
  apply double_lt_le in Hlt'. exact (double_le_lt_asym _ _ Hlt' Hup).
Qed.

Lemma scale_decisions_exclusive_witness :
  ¬ (shouldScaleUp default_config two_workers = true ∧
     shouldScaleDown default_config 100000 two_workers = true).
Proof.
  apply (scale_decisions_exclusive default_config 100000 two_workers).
  vm_compute. reflexivity.
Defined.

(** ** Status *)

Lemma length_objects_le (s : LB) : (length (objects s) ≤ length (instances s))%nat.
Proof.
  unfold objects. induction (instances s) as [|l ls IH]; simpl; [done|].
  unfold omap in IH. destruct (heap s !! l); simpl; lia.
Qed.

Lemma length_objects (s : LB) :
  (∀ l, l ∈ instances s → is_Some (heap s !! l)) →
  length (objects s) = length (instances s).
Proof.
  unfold objects. induction (instances s) as [|l ls IH]; intros Hwf; [done|].
  simpl. destruct (Hwf l) as [i Hi]; [left|]. rewrite Hi. simpl.
  unfold omap in IH. rewrite IH; [done|]. intros l' Hl'. apply Hwf. by right.
Qed.

(** [getStatus] is consistent with the dispatcher: [healthy] never
    exceeds [total], it counts exactly the listed workers that are
    healthy and running, it is 0 exactly when [pickInstance] finds no
    worker (the 503 case), and, when every reference of the pool points
    to a worker object, the list has one entry per worker of the pool. *)
Theorem getStatus_consistent (s : LB) :
  (∀ l, l ∈ instances s → is_Some (heap s !! l)) →
  let r := getStatus s in
  report_total r = length (instances s) ∧
  (report_healthy r ≤ report_total r)%nat ∧
  length (report_instances r) = report_total r ∧
  length (filter (λ e, entry_healthy e = true ∧ entry_status e = running)
            (report_instances r)) = report_healthy r ∧
  (report_healthy r = 0%nat ↔ pickInstance s = None).
Proof.
  intros Hwf. cbv zeta. unfold getStatus. simpl. split_and!.
  - done.
  - unfold getHealthyInstances. etrans; [apply length_filter|].
    apply length_objects_le.
  - rewrite length_fmap. by apply length_objects.
  - unfold getHealthyInstances, healthyRunning.
    induction (objects s) as [|p ps IH]; [done|].
    rewrite fmap_cons, !filter_cons. simpl.
    destruct (decide (isHealthy p.2 = true ∧ status p.2 = running));
      simpl; by rewrite IH.
  - rewrite pickInstance_None. by destruct (getHealthyInstances s).
Qed.

Lemma getStatus_consistent_witness :
  let r := getStatus two_workers in
  report_total r = length (instances two_workers) ∧
  (report_healthy r ≤ report_total r)%nat ∧
  length (report_instances r) = report_total r ∧
  length (filter (λ e, entry_healthy e = true ∧ entry_status e = running)
            (report_instances r)) = report_healthy r ∧
  (report_healthy r = 0%nat ↔ pickInstance two_workers = None).
Proof.
  apply (getStatus_consistent two_workers).
  intros l [->|[->|Hl%elem_of_nil]%elem_of_cons]%elem_of_cons;
    [vm_compute; eauto..|done].
Defined.

(** ** One tick of the autoscaler *)

Lemma omap_heap_ext (h h' : gmap loc DockerInstance) (ls : list loc) :
  (∀ l, l ∈ ls → h' !! l = h !! l) →
  omap (λ l, pair l <$> h' !! l) ls = omap (λ l, pair l <$> h !! l) ls.
Proof.
  intros Hext. apply list_omap_ext, Forall2_same_length_lookup_2; [done|].
  intros k l l' Hl Hl'. rewrite Hl in Hl'. injection Hl' as <-.
  rewrite Hext; [done|]. by eapply list_elem_of_lookup_2.
Qed.

Lemma candidate_elem (healthy : list (loc * DockerInstance)) p :
  candidate healthy = Some p → p ∈ healthy.
Proof.
  unfold candidate. intros (pre & post & Heq & _)%head_sort_by_first_min.
  assert (p ∈ filter (λ p, activeRequests p.2 = 0) healthy) as Hin.
  { rewrite Heq. apply elem_of_app. right. left. }
  by apply list_elem_of_filter in Hin as [_ ?].
Qed.

(** One tick of [autoScale], on a pool without repeated or dangling
    references, never rejects, adds or removes at most one worker, and
    never brings the number of healthy running workers above
    [maxInstances] (it is the healthy running workers, not the pool,
    that the tick bounds). *)
Theorem autoScale_one_action (cfg : AppConfig) (now : Z) (c : CreateOutcome)
  (rounds : list PollRound) (o : RemoveOutcome) (s : LB) :
  NoDup (instances s) →
  (∀ l, l ∈ instances s → is_Some (heap s !! l)) →
  let r := autoScale cfg now c rounds o s in
  r.1 = Ok tt ∧
  (length (instances r.2) = length (instances s) ∨
   length (instances r.2) = S (length (instances s)) ∨
   S (length (instances r.2)) = length (instances s)) ∧
  Z.of_nat (length (getHealthyInstances r.2))
    ≤ Z.max (maxInstances cfg) (Z.of_nat (length (getHealthyInstances s))).
Proof.
  intros Hnd Hwf. cbv zeta. rewrite autoScale_by_action.
  unfold autoScale_action.
  destruct (shouldScaleUp cfg s) eqn:Hup.
  - (* scale up *)
    assert (Z.of_nat (length (getHealthyInstances s)) < maxInstances cfg) as Hmax.
    { unfold shouldScaleUp in Hup. case_decide; [done|lia]. }
    pose proof (spawnInstance_spec cfg c rounds o s Hwf) as Hsp.
    cbv zeta in Hsp. destruct Hsp as (_ & Hheap & _ & Hres).
    unfold try_catch, mbind, M_bind, bind.
    destruct (spawnInstance cfg c rounds o s) as [[w|e] s'] eqn:Hspawn;
      simpl in *.
    + destruct Hres as (Hfresh & Hinst & i & Hi & _).
      split; [done|]. split.
      { right. left. rewrite Hinst, length_app. simpl. lia. }
      unfold getHealthyInstances at 1, objects. rewrite Hinst, omap_app.
      rewrite (omap_heap_ext (heap s)) by (intros l Hl; apply Hheap; auto).
      fold (objects s). simpl. rewrite Hi. simpl.
      rewrite filter_app, length_app. fold (getHealthyInstances s).
      pose proof (length_filter (λ p, healthyRunning p.2) [(w, i)]) as Hone.
      simpl in Hone. lia.
    + split; [done|]. split; [left; by rewrite Hres|].
      unfold getHealthyInstances at 1, objects. rewrite Hres.
      rewrite (omap_heap_ext (heap s)) by (intros l Hl; apply Hheap; auto).
      fold (objects s). fold (getHealthyInstances s). lia.
  - destruct (shouldScaleDown cfg now s); [|simpl; split_and!; [done|by left|lia]].
    destruct (candidate (getHealthyInstances s)) as [[w i]|] eqn:Hcand;
      [|simpl; split_and!; [done|by left|lia]].
    apply candidate_elem in Hcand.
    pose proof Hcand as (Hin & Hw & Hhr)%elem_of_getHealthyInstances.
    destruct (removeInstance_spec o w s) as (Hok & Hinst & _). simpl.
    split; [done|]. split.
    + right. right. rewrite Hinst. by apply length_remove_first.
    + unfold getHealthyInstances at 1. rewrite objects_removeInstance by done.
      assert (pair w <$> heap s !! w = Some (w, i)) as Hfw by (by rewrite Hw).
      pose proof (length_filter_omap_remove_first
                    (λ l, pair l <$> heap s !! l) (λ p, healthyRunning p.2)
                    w (w, i) (instances s) Hin Hfw Hhr) as Hlen.
      fold (objects s) in Hlen. fold (getHealthyInstances s) in Hlen. lia.
Qed.

Lemma autoScale_one_action_witness :
  let r := autoScale one_at_least 100000 first_container [] all_ok idle_pool in
  r.1 = Ok tt ∧
  (length (instances r.2) = length (instances idle_pool) ∨
   length (instances r.2) = S (length (instances idle_pool)) ∨
   S (length (instances r.2)) = length (instances idle_pool)) ∧
  Z.of_nat (length (getHealthyInstances r.2))
    ≤ Z.max (maxInstances one_at_least)
        (Z.of_nat (length (getHealthyInstances idle_pool))).
Proof.
  apply (autoScale_one_action one_at_least 100000 first_container [] all_ok
           idle_pool).
  - simpl. apply NoDup_cons. split; [|apply NoDup_singleton].
    intros Hin%list_elem_of_singleton. discriminate Hin.
  - intros l [->|[->|Hl%elem_of_nil]%elem_of_cons]%elem_of_cons;
      [vm_compute; eauto..|done].
Defined.

(** ** A tick without a healthy answer *)





(** ** Counting dispatches *)

Lemma sum_alter (f : DockerInstance → Z) (w : loc)
  (g : DockerInstance → DockerInstance) (h : gmap loc DockerInstance)
  (i : DockerInstance) (ls : list loc) :
  NoDup ls → w ∈ ls → h !! w = Some i →
  foldr (λ p acc, f p.2 + acc) 0 (omap (λ l, pair l <$> alter g w h !! l) ls)
  = foldr (λ p acc, f p.2 + acc) 0 (omap (λ l, pair l <$> h !! l) ls)
    + (f (g i) - f i).
Proof.
  intros Hnd Hin Hw. induction ls as [|l ls IH].
  { by apply elem_of_nil in Hin. }
  apply NoDup_cons in Hnd as [Hl Hnd]. simpl. rewrite lookup_alter.
  destruct (decide (w = l)) as [<-|Hne].
  - rewrite Hw. simpl.
    pose proof (omap_heap_ext h (alter g w h) ls) as Hext. unfold omap in Hext.
    rewrite Hext.
    + lia.
    + intros l' Hl'. rewrite lookup_alter_ne; [done|]. by intros <-.
  - apply elem_of_cons in Hin as [->|Hin]; [done|].
    specialize (IH Hnd Hin). unfold omap in IH.
    destruct (h !! l); simpl; lia.
Qed.

Lemma pool_sum_update (f : DockerInstance → Z) (w : loc)
  (g : DockerInstance → DockerInstance) (s : LB) (i : DockerInstance) :
  NoDup (instances s) → w ∈ instances s → heap s !! w = Some i →
  pool_sum f (update w g s) = pool_sum f s + (f (g i) - f i).
Proof. intros. unfold pool_sum, objects. simpl. by apply sum_alter. Qed.

Lemma handleRequest_pool_sums (req : Request) (now1 now2 : Z) (s : LB)
  (w : loc) (i : DockerInstance) :
  NoDup (instances s) → pickInstance s = Some (w, i) →
  let s' := (handleRequest req now1 now2 s).2 in
  pool_sum totalRequests s' = pool_sum totalRequests s + 1 ∧
  pool_sum activeRequests s' = pool_sum activeRequests s + 1 ∧
  pickInstance s' ≠ None ∧ NoDup (instances s').
Proof.
  intros Hnd Hpick. cbv zeta.
  pose proof (pickInstance_elem _ _ Hpick)
    as (Hin & Hw & Hhealthy & Hrun)%elem_of_getHealthyInstances.
  destruct (handleRequest_picked req now1 now2 s w i Hpick)
    as (Hw' & Hinst). cbv zeta in *.
  unfold handleRequest in *. rewrite Hpick in *. simpl in Hw', Hinst |- *.
  set (s1 := update w (λ i, set_activeRequests (activeRequests i + 1) i) s).
  set (s2 := update w (λ i, set_totalRequests (totalRequests i + 1) i) s1).
  assert (heap s1 !! w = Some (set_activeRequests (activeRequests i + 1) i)) as H1.
  { unfold s1. rewrite lookup_update, decide_True by done. by rewrite Hw. }
  assert (heap s2 !! w = Some (set_totalRequests (totalRequests i + 1)
                                 (set_activeRequests (activeRequests i + 1) i)))
    as H2.
  { unfold s2. rewrite lookup_update, decide_True by done. by rewrite H1. }
  split_and!.
  - rewrite (pool_sum_update _ w _ s2 _ Hnd Hin H2).
    unfold s2. rewrite (pool_sum_update _ w _ s1 _ Hnd Hin H1).
    unfold s1. rewrite (pool_sum_update _ w _ s _ Hnd Hin Hw). simpl. lia.
  - rewrite (pool_sum_update _ w _ s2 _ Hnd Hin H2).
    unfold s2. rewrite (pool_sum_update _ w _ s1 _ Hnd Hin H1).
    unfold s1. rewrite (pool_sum_update _ w _ s _ Hnd Hin Hw). simpl. lia.
  - rewrite pickInstance_None. intros Hnil.
    assert ((w, set_lastRequestTime now1
                  (set_totalRequests (totalRequests i + 1)
                     (set_activeRequests (activeRequests i + 1) i)))
            ∈ getHealthyInstances (update w (set_lastRequestTime now1) s2))
      as Hin'.
    { apply elem_of_getHealthyInstances. split_and!; [done| |done].
      rewrite lookup_update, decide_True by done. by rewrite H2. }
    rewrite Hnil in Hin'. by apply elem_of_nil in Hin'.
  - done.
Qed.

(** N requests dispatched one after the other, while none completes and
    no probe or scaling step runs, on a pool without repeated references
    that has a healthy running worker: every one of them is forwarded,
    the [totalRequests] of the pool grow by N in sum and so do the
    [activeRequests]. *)
Theorem serve_counts (reqs : list (Request * Z * Z)) (s : LB) :
  NoDup (instances s) → pickInstance s ≠ None →
  let r := serve reqs s in
  Forall forwarded r.1 ∧ length r.1 = length reqs ∧
  pool_sum totalRequests r.2
    = pool_sum totalRequests s + Z.of_nat (length reqs) ∧
  pool_sum activeRequests r.2
    = pool_sum activeRequests s + Z.of_nat (length reqs).
Proof.
  revert s. induction reqs as [|[[req now1] now2] reqs IH]; intros s Hnd Hpick.
  { cbv zeta. simpl. split_and!; [constructor|done|lia..]. }
  cbv zeta. cbn [serve].
  destruct (pickInstance s) as [[w i]|] eqn:Hp; [|done].
  destruct (handleRequest_pool_sums req now1 now2 s w i Hnd Hp)
    as (Htot & Hact & Hpick' & Hnd'). cbv zeta in *.
  assert (forwarded (handleRequest req now1 now2 s).1) as Hfw.
  { unfold handleRequest. by rewrite Hp. }
  destruct (handleRequest req now1 now2 s) as [d s1]. simpl in *.
  specialize (IH s1 Hnd' Hpick'). cbv zeta in IH.
  destruct (serve reqs s1) as [ds s2]. simpl in *.
  destruct IH as (Hall & Hlen & Htot' & Hact').
  split_and!; [by constructor|by rewrite Hlen|lia..].
Qed.

Lemma serve_counts_witness :
  let reqs := [(mkRequest "/a" "GET", 2000, 2000);
               (mkRequest "/b" "POST", 2001, 2001);
               (mkRequest "/c" "GET", 2002, 2002)] in
  let r := serve reqs two_workers in
  Forall forwarded r.1 ∧ length r.1 = length reqs ∧
  pool_sum totalRequests r.2
    = pool_sum totalRequests two_workers + Z.of_nat (length reqs) ∧
  pool_sum activeRequests r.2
    = pool_sum activeRequests two_workers + Z.of_nat (length reqs).
Proof.
  apply (serve_counts [(mkRequest "/a" "GET", 2000, 2000);
                       (mkRequest "/b" "POST", 2001, 2001);
                       (mkRequest "/c" "GET", 2002, 2002)] two_workers).
  - simpl. apply NoDup_cons. split; [|apply NoDup_singleton].
    intros Hin%list_elem_of_singleton. discriminate Hin.
  - vm_compute. discriminate.
Defined.
